(** * matchFuzzy: a shallow embedding of [src/index.ts] and its properties

    Modelling conventions.

    - A JavaScript string is the list of its UTF-16 code units, each a
      number of [N].
    - [String.prototype.toLowerCase] belongs to the engine, not to the file.
      It is a variable of the development, an arbitrary function from strings
      to strings: nothing is assumed about the length of its result or about
      how it treats a unit in its context.  Where a statement needs a fact
      about it, the fact is a hypothesis of that statement.  The instances at
      the end of the file use [lowerCase], which is the engine's function on
      the strings they mention.
    - Positions, limits and scores are JavaScript numbers holding integers;
      they are integers of [Z] here ([indexOf] answers [-1] when nothing is
      found).  Lengths and the recursion depth are natural numbers.
    - The [characterLimit] object is a finite map from one-unit keys to
      integers; reading a missing key gives [None] (JavaScript's
      [undefined]), and every comparison against it is false.
    - A call either completes normally or throws; [null] is [None].
    - The functions come twice.  First as the values their calls return when
      they complete ([findOccurences], [matchFuzzy], ...).  Then with the call
      stack ([findOccurencesIn], [matchFuzzyIn], ...): every call of a
      function of the file, the two arrow functions handed to [forEach]
      among them, takes one frame, and a call made with no frame left
      throws; the engine's own functions are not counted.
      [matchFuzzyIn_agrees] and [matchFuzzyIn_enough] relate the two. *)

From Stdlib Require Import ZArith Lia Ascii String.
From Equations Require Import Equations.
From stdpp Require Import gmap strings list fin_maps sorting.

(** ** Strings *)

Abbreviation codeUnit := N (only parsing).

(** The code unit of an ASCII character, and the literal ["..."] as a list
    of code units. *)
Definition unitOf (c : ascii) : codeUnit := N_of_ascii c.
Definition units (s : string) : list codeUnit :=
  List.map N_of_ascii (list_ascii_of_string s).

(** [target.indexOf(character, startIndex)] for a one-unit [character]: the
    least position that is at least [startIndex] and holds [character], or
    [-1].  [position] is the position of the head of [target]. *)
Fixpoint indexOfFrom (target : list codeUnit) (character : codeUnit)
    (position startIndex : Z) : Z :=
  match target with
  | [] => (-1)%Z
  | unit :: rest =>
      if (startIndex <=? position)%Z && N.eqb unit character then position
      else indexOfFrom rest character (position + 1)%Z startIndex
  end.

Definition indexOf (target : list codeUnit) (character : codeUnit) (startIndex : Z) : Z :=
  indexOfFrom target character 0%Z startIndex.

(** [target.substring(first, last)]: both ends are clamped to the string and
    swapped when out of order. *)
Definition substring (target : list codeUnit) (first last : Z) : list codeUnit :=
  let len := Z.of_nat (length target) in
  let a := Z.min (Z.max first 0) len in
  let b := Z.min (Z.max last 0) len in
  let from := Z.min a b in
  let to := Z.max a b in
  take (Z.to_nat (to - from)) (drop (Z.to_nat from) target).

Lemma indexOfFrom_spec target character position startIndex :
  let r := indexOfFrom target character position startIndex in
  (r = (-1)%Z ∧ (position >= 0 → r < position)%Z ∨
   (position <= r ∧ startIndex <= r ∧ r < position + Z.of_nat (length target))%Z).
Proof.
  revert position. induction target as [|u rest IH]; intros position; simpl.
  - left. split; [done | lia].
  - destruct ((startIndex <=? position)%Z && N.eqb u character) eqn:E.
    + right. apply andb_true_iff in E as [E _]. lia.
    + destruct (IH (position + 1)%Z) as [[-> _] | H].
      * left. split; [done | lia].
      * right. lia.
Qed.

Lemma indexOf_found_bounds target character startIndex :
  (0 <=? indexOf target character startIndex)%Z = true →
  (startIndex <= indexOf target character startIndex
   ∧ 0 <= indexOf target character startIndex
   ∧ indexOf target character startIndex < Z.of_nat (length target))%Z.
Proof.
  intros H. unfold indexOf in *.
  destruct (indexOfFrom_spec target character 0%Z startIndex) as [[E _] | E];
    simpl in *; lia.
Qed.

Definition inspect {A : Type} (a : A) : {b : A | a = b} := exist _ a eq_refl.

(** [findOccurences]: the recursion restarts one past each match, so the
    distance from [startIndex] to the end of [target] decreases. *)
Equations? findOccurences (target : list codeUnit) (character : codeUnit)
    (startIndex : Z) (result : list Z) : list Z
    by wf (Z.to_nat (Z.of_nat (length target) - startIndex)) lt :=
  findOccurences target character startIndex result
    with inspect (indexOf target character startIndex) := {
    | exist _ matchIndex Hindex with inspect (0 <=? matchIndex)%Z := {
      | exist _ true Hfound :=
          findOccurences target character (matchIndex + 1)%Z (result ++ [matchIndex]);
      | exist _ false _ := result } }.
Proof.
  subst matchIndex.
  pose proof (indexOf_found_bounds target character startIndex Hfound). lia.
Qed.

Example findOccurences_doc1 : findOccurences (units "aaaaa") (unitOf "b") 0 [] = [].
Proof. reflexivity. Qed.
Example findOccurences_doc2 : findOccurences (units "aabaaba") (unitOf "b") 0 [] = [2; 5]%Z.
Proof. reflexivity. Qed.
(** The start index is inclusive, as in [indexOf]. *)
Example findOccurences_from_match :
  findOccurences (units "aabaaba") (unitOf "b") 2 [] = [2; 5]%Z.
Proof. reflexivity. Qed.
Example findOccurences_past_match :
  findOccurences (units "aabaaba") (unitOf "b") 3 [] = [5]%Z.
Proof. reflexivity. Qed.

(** ** Outcomes of a call *)

Inductive completion (A : Type) : Type :=
| Normal (value : A)
| Throw.
Arguments Normal {A} value.
Arguments Throw {A}.

(** ** The result record *)

Record MatchResult : Type := mkMatchResult {
  offset : Z;
  positions : list Z;
  extraChars : Z;
  trailingChars : Z
}.

(** ** [calculateExtraChars] *)

Fixpoint extraCharsFrom (rest : list Z) (totalCharsInBetween previousCharPosition : Z) : Z :=
  match rest with
  | [] => totalCharsInBetween
  | position :: rest' =>
      extraCharsFrom rest'
        (totalCharsInBetween + (position - previousCharPosition - 1))%Z position
  end.

Definition calculateExtraChars (characterPositions : list Z) : Z :=
  match characterPositions with
  | [] => 0%Z
  | first :: rest => extraCharsFrom rest 0%Z first
  end.

Example calculateExtraChars_doc1 : calculateExtraChars [0; 1; 2; 3]%Z = 0%Z.
Proof. reflexivity. Qed.
Example calculateExtraChars_doc2 : calculateExtraChars [0; 5; 7]%Z = 5%Z.
Proof. reflexivity. Qed.
Example calculateExtraChars_doc3 : calculateExtraChars [9; 12; 13]%Z = 2%Z.
Proof. reflexivity. Qed.

(** ** [sort], the comparator *)

Definition sort (a b : MatchResult) : Z :=
  if negb (extraChars a =? extraChars b)%Z
  then (if (extraChars a <? extraChars b)%Z then -1 else 1)%Z
  else if negb (offset a =? offset b)%Z
  then (if (offset a <? offset b)%Z then -1 else 1)%Z
  else if negb (trailingChars a =? trailingChars b)%Z
  then (if (trailingChars a <? trailingChars b)%Z then -1 else 1)%Z
  else 0%Z.

(** * The functions that lowercase *)

Section lowercasing.

(** [s.toLowerCase()], the engine's function. *)
Variable toLowerCase : list codeUnit → list codeUnit.

(** ** [hasLessThanMaximumCharacters] *)

(** The span handed to [findOccurences]: from [foundChars[0]] to
    [foundChars[foundChars.length - 1]], end excluded.  On an empty array both
    reads are [undefined] and [substring] then returns the whole string. *)
Definition spanOf (target : list codeUnit) (foundChars : list Z) : list codeUnit :=
  match head foundChars, last foundChars with
  | Some first, Some final => substring target first final
  | _, _ => target
  end.

(** One turn of the [for ... in] loop: does [character] make the filter
    return [false]?  The key is a one-unit string; it is lowercased, counted
    in the span, and the limit is read under the lowercased key.  When the
    lowercased key is not one unit long it is no key of the mapping: the
    limit read is [undefined] and the comparison false. *)
Definition exceedsLimit (target : list codeUnit) (foundChars : list Z)
    (charLimits : gmap codeUnit Z) (character : codeUnit) : bool :=
  let subString := spanOf target foundChars in
  match toLowerCase [character] with
  | [characterLowerCased] =>
      match charLimits !! characterLowerCased with
      | Some limit =>
          (limit
           <? Z.of_nat (length (findOccurences subString characterLowerCased 0%Z [])))%Z
      | None => false
      end
  | _ => false
  end.

Definition hasLessThanMaximumCharacters (target : list codeUnit) (foundChars : list Z)
    (charLimits : gmap codeUnit Z) : bool :=
  forallb (fun entry => negb (exceedsLimit target foundChars charLimits entry.1))
          (map_to_list charLimits).

(** ** [getPossibleCombinations] *)

(** [set[set.length - 1] < occurence]; an [undefined] left operand compares
    false. *)
Definition lastBefore (set : list Z) (occurence : Z) : bool :=
  match last set with
  | Some final => (final <? occurence)%Z
  | None => false
  end.

(** The branch for [depth > 0].  [levels] is [characterPositions] from index
    [depth] on, so that its head is [characterPositions[depth]] and the test
    [characterPositions.length - 1 > depth] asks whether its tail is
    non-empty.  [result] is the shared array of chains: a chain is extended
    in place, and the recursive call works on the whole array before the
    [forEach] moves to the next index. *)
Fixpoint extendCombinations (levels : list (list Z)) (depth : nat)
    (result : list (list Z)) : list (list Z) :=
  match levels with
  | [] => result
  | currentOccurence :: deeper =>
      foldl (fun result occurence =>
        foldl (fun result i =>
          match result !! i with
          | Some set =>
              if (depth =? length set)%nat && lastBefore set occurence then
                let result := <[i := set ++ [occurence]]> result in
                match deeper with
                | [] => result
                | _ :: _ => extendCombinations deeper (S depth) result
                end
              else result
          | None => result
          end) result (seq 0 (length result)))
        result currentOccurence
  end.

(** The call at [depth = 0]: seed, descend, drop the chains that are too
    short.  With no occurrence list at all, [characterPositions[0]] is
    [undefined] and [forEach] on it throws. *)
Definition getPossibleCombinations (characterPositions : list (list Z))
    (result : list (list Z)) : completion (list (list Z)) :=
  match characterPositions with
  | [] => Throw
  | currentOccurence :: deeper =>
      let result := result ++ List.map (fun occurence => [occurence]) currentOccurence in
      let result :=
        match deeper with
        | [] => result
        | _ :: _ => extendCombinations deeper 1 result
        end in
      Normal (List.filter
                (fun set => (length set =? length characterPositions)%nat) result)
  end.

(** ** [matchFuzzy] *)

(** The indexing loop, from index [i] on; [characters] is what is left of
    the lowercased query.  The flag tells whether the loop ran to its end
    ([true]) or left through [return null] ([false]); the lists pushed so
    far come back in both cases. *)
Fixpoint indexOccurences (targetLowerCased characters : list codeUnit) (i : nat)
    (occurencesPerChar : list (list Z)) : completion (list (list Z) * bool) :=
  match characters with
  | [] => Normal (occurencesPerChar, true)
  | character :: characters' =>
      let startIndex : completion Z :=
        if (length occurencesPerChar =? 0)%nat then Normal 0%Z
        else match occurencesPerChar !! (i - 1)%nat with
             | None => Throw
             | Some previous =>
                 (* an empty [previous] would give [undefined + 1], which
                    [indexOf] reads as 0 *)
                 Normal (match head previous with
                         | Some first => first + 1
                         | None => 0
                         end)%Z
             end in
      match startIndex with
      | Throw => Throw
      | Normal startIndex =>
          let occurences := findOccurences targetLowerCased character startIndex [] in
          if (length occurences =? 0)%nat then Normal (occurencesPerChar, false)
          else indexOccurences targetLowerCased characters' (S i)
                 (occurencesPerChar ++ [occurences])
      end
  end.

(** The selection loop over [combinations], with its [continue] and its
    [break]. *)
Fixpoint selectBest (targetLowerCased : list codeUnit) (characterLimit : gmap codeUnit Z)
    (combinations : list (list Z)) (bestCombination : option (Z * list Z))
    : option (Z * list Z) :=
  match combinations with
  | [] => bestCombination
  | set :: combinations' =>
      if negb (hasLessThanMaximumCharacters targetLowerCased set characterLimit)
      then selectBest targetLowerCased characterLimit combinations' bestCombination
      else
        let extraCharCount := calculateExtraChars set in
        let bestCombination :=
          match bestCombination with
          | None => (extraCharCount, set)
          | Some best =>
              if (extraCharCount <? best.1)%Z then (extraCharCount, set) else best
          end in
        if (bestCombination.1 =? 0)%Z then Some bestCombination
        else selectBest targetLowerCased characterLimit combinations' (Some bestCombination)
  end.

(** Reads of [set[0]] and [set[set.length - 1]] for the result; they happen
    on full-length chains only, which are never empty. *)
Definition firstOf (set : list Z) : Z := default 0%Z (head set).
Definition lastOf (set : list Z) : Z := default 0%Z (last set).

Definition matchFuzzy (query target : list codeUnit) (characterLimit : gmap codeUnit Z)
    : completion (option MatchResult) :=
  if (length target =? 0)%nat || (length query =? 0)%nat
     || (length target <? length query)%nat
  then Normal None
  else
    let queryLowerCased := toLowerCase query in
    let targetLowerCased := toLowerCase target in
    match indexOccurences targetLowerCased queryLowerCased 0 [] with
    | Throw => Throw
    | Normal (_, false) => Normal None
    | Normal (occurencesPerChar, true) =>
        match getPossibleCombinations occurencesPerChar [] with
        | Throw => Throw
        | Normal combinations =>
            match selectBest targetLowerCased characterLimit combinations None with
            | Some bestCombination =>
                Normal (Some {|
                  offset := firstOf bestCombination.2;
                  positions := bestCombination.2;
                  extraChars := bestCombination.1;
                  trailingChars :=
                    Z.of_nat (length target) - (lastOf bestCombination.2 + 1) |})
            | None => Normal None
            end
        end
    end.

(** * The call stack *)

(** A call of a function of the file takes a frame; made with no frame
    remaining, it throws.  [body] runs with the frames that are left. *)
Definition call {A : Type} (frames : nat) (body : nat → completion A) : completion A :=
  match frames with
  | 0 => Throw
  | S remaining => body remaining
  end.

(** A loop whose turns may throw. *)
Fixpoint foldlC {A B : Type} (step : A → B → completion A) (a : A) (l : list B)
    : completion A :=
  match l with
  | [] => Normal a
  | b :: l' =>
      match step a b with
      | Throw => Throw
      | Normal a' => foldlC step a' l'
      end
  end.

(** [target.indexOf(character, startIndex)] for a string [character] of any
    length: the least position at or after [startIndex] at which [character]
    begins; for the empty string the start index itself, brought into the
    target; [-1] when there is none. *)
Fixpoint startsWith (target character : list codeUnit) {struct character} : bool :=
  match character, target with
  | [], _ => true
  | _ :: _, [] => false
  | c :: character', unit :: target' => N.eqb unit c && startsWith target' character'
  end.

Fixpoint indexOfStringFrom (target character : list codeUnit)
    (position startIndex : Z) : Z :=
  match target with
  | [] => match character with [] => position | _ :: _ => (-1)%Z end
  | _ :: rest =>
      if (startIndex <=? position)%Z && startsWith target character then position
      else indexOfStringFrom rest character (position + 1)%Z startIndex
  end.

Definition indexOfString (target character : list codeUnit) (startIndex : Z) : Z :=
  indexOfStringFrom target character 0%Z startIndex.

(** [findOccurences] on the stack: one frame for each call of the
    recursion. *)
Fixpoint findOccurencesIn (frames : nat) (target character : list codeUnit)
    (startIndex : Z) (result : list Z) : completion (list Z) :=
  match frames with
  | 0 => Throw
  | S remaining =>
      let matchIndex := indexOfString target character startIndex in
      if (0 <=? matchIndex)%Z
      then findOccurencesIn remaining target character (matchIndex + 1)%Z
             (result ++ [matchIndex])
      else Normal result
  end.

(** [getPossibleCombinations] at [depth > 0] on the stack: a frame for the
    call, one for each call of the [forEach] callback, and inside the
    callback one for the recursive call. *)
Fixpoint extendCombinationsIn (frames : nat) (levels : list (list Z)) (depth : nat)
    (result : list (list Z)) : completion (list (list Z)) :=
  call frames (fun remaining =>
    match levels with
    | [] => Normal result
    | currentOccurence :: deeper =>
        foldlC (fun result occurence =>
          foldlC (fun result i =>
            call remaining (fun deeperFrames =>
              match result !! i with
              | Some set =>
                  if (depth =? length set)%nat && lastBefore set occurence then
                    let result := <[i := set ++ [occurence]]> result in
                    match deeper with
                    | [] => Normal result
                    | _ :: _ => extendCombinationsIn deeperFrames deeper (S depth) result
                    end
                  else Normal result
              | None => Normal result
              end)) result (seq 0 (length result)))
          result currentOccurence
    end).

(** [getPossibleCombinations] at [depth = 0] on the stack. *)
Definition getPossibleCombinationsIn (frames : nat) (characterPositions : list (list Z))
    (result : list (list Z)) : completion (list (list Z)) :=
  call frames (fun remaining =>
    match characterPositions with
    | [] => Throw
    | currentOccurence :: deeper =>
        match foldlC (fun result occurence =>
                        call remaining (fun _ => Normal (result ++ [[occurence]])))
                result currentOccurence with
        | Throw => Throw
        | Normal result =>
            match (match deeper with
                   | [] => Normal result
                   | _ :: _ => extendCombinationsIn remaining deeper 1 result
                   end) with
            | Throw => Throw
            | Normal result =>
                Normal (List.filter
                          (fun set => (length set =? length characterPositions)%nat)
                          result)
            end
        end
    end).

(** [charLimits[characterLowerCased]]: the keys of the mapping are one-unit
    strings. *)
Definition limitOf (charLimits : gmap codeUnit Z) (characterLowerCased : list codeUnit)
    : option Z :=
  match characterLowerCased with
  | [unit] => charLimits !! unit
  | _ => None
  end.

(** [hasLessThanMaximumCharacters] on the stack.  [keys] is the order in
    which [for ... in] visits the keys of [charLimits]; [visitKeys] is that
    loop, with [frames] left inside the call. *)
Fixpoint visitKeys (frames : nat) (keys : list codeUnit) (target : list codeUnit)
    (foundChars : list Z) (charLimits : gmap codeUnit Z) : completion bool :=
  match keys with
  | [] => Normal true
  | character :: keys' =>
      let characterLowerCased := toLowerCase [character] in
      let subString := spanOf target foundChars in
      match findOccurencesIn frames subString characterLowerCased 0%Z [] with
      | Throw => Throw
      | Normal occurences =>
          match limitOf charLimits characterLowerCased with
          | Some limit =>
              if (limit <? Z.of_nat (length occurences))%Z then Normal false
              else visitKeys frames keys' target foundChars charLimits
          | None => visitKeys frames keys' target foundChars charLimits
          end
      end
  end.

Definition hasLessThanMaximumCharactersIn (frames : nat) (keys : list codeUnit)
    (target : list codeUnit) (foundChars : list Z) (charLimits : gmap codeUnit Z)
    : completion bool :=
  call frames (fun remaining => visitKeys remaining keys target foundChars charLimits).

Definition calculateExtraCharsIn (frames : nat) (characterPositions : list Z)
    : completion Z :=
  call frames (fun _ => Normal (calculateExtraChars characterPositions)).

(** The loops of [matchFuzzy] on the stack, with [frames] remaining inside the
    call of [matchFuzzy]. *)
Fixpoint indexOccurencesIn (frames : nat) (targetLowerCased characters : list codeUnit)
    (i : nat) (occurencesPerChar : list (list Z)) : completion (list (list Z) * bool) :=
  match characters with
  | [] => Normal (occurencesPerChar, true)
  | character :: characters' =>
      let startIndex : completion Z :=
        if (length occurencesPerChar =? 0)%nat then Normal 0%Z
        else match occurencesPerChar !! (i - 1)%nat with
             | None => Throw
             | Some previous =>
                 Normal (match head previous with
                         | Some first => first + 1
                         | None => 0
                         end)%Z
             end in
      match startIndex with
      | Throw => Throw
      | Normal startIndex =>
          match findOccurencesIn frames targetLowerCased [character] startIndex [] with
          | Throw => Throw
          | Normal occurences =>
              if (length occurences =? 0)%nat then Normal (occurencesPerChar, false)
              else indexOccurencesIn frames targetLowerCased characters' (S i)
                     (occurencesPerChar ++ [occurences])
          end
      end
  end.

Fixpoint selectBestIn (frames : nat) (keys : list codeUnit)
    (targetLowerCased : list codeUnit) (characterLimit : gmap codeUnit Z)
    (combinations : list (list Z)) (bestCombination : option (Z * list Z))
    : completion (option (Z * list Z)) :=
  match combinations with
  | [] => Normal bestCombination
  | set :: combinations' =>
      match hasLessThanMaximumCharactersIn frames keys targetLowerCased set characterLimit
      with
      | Throw => Throw
      | Normal false =>
          selectBestIn frames keys targetLowerCased characterLimit combinations'
            bestCombination
      | Normal true =>
          match calculateExtraCharsIn frames set with
          | Throw => Throw
          | Normal extraCharCount =>
              let bestCombination :=
                match bestCombination with
                | None => (extraCharCount, set)
                | Some best =>
                    if (extraCharCount <? best.1)%Z then (extraCharCount, set) else best
                end in
              if (bestCombination.1 =? 0)%Z then Normal (Some bestCombination)
              else selectBestIn frames keys targetLowerCased characterLimit combinations'
                     (Some bestCombination)
          end
      end
  end.

(** [matchFuzzy] called with [frames] frames remaining on the stack. *)
Definition matchFuzzyIn (frames : nat) (keys : list codeUnit)
    (query target : list codeUnit) (characterLimit : gmap codeUnit Z)
    : completion (option MatchResult) :=
  call frames (fun remaining =>
    if (length target =? 0)%nat || (length query =? 0)%nat
       || (length target <? length query)%nat
    then Normal None
    else
      let queryLowerCased := toLowerCase query in
      let targetLowerCased := toLowerCase target in
      match indexOccurencesIn remaining targetLowerCased queryLowerCased 0 [] with
      | Throw => Throw
      | Normal (_, false) => Normal None
      | Normal (occurencesPerChar, true) =>
          match getPossibleCombinationsIn remaining occurencesPerChar [] with
          | Throw => Throw
          | Normal combinations =>
              match selectBestIn remaining keys targetLowerCased characterLimit
                      combinations None with
              | Throw => Throw
              | Normal (Some bestCombination) =>
                  Normal (Some {|
                    offset := firstOf bestCombination.2;
                    positions := bestCombination.2;
                    extraChars := bestCombination.1;
                    trailingChars :=
                      Z.of_nat (length target) - (lastOf bestCombination.2 + 1) |})
              | Normal None => Normal None
              end
          end
      end).

(** * Properties *)

(** ** What the enumerator computes

    Each chain of the array grows by the first occurrence, in list order,
    that lies after its last position, level after level, until a level
    offers none. *)

Fixpoint greedyChain (levels : list (list Z)) (set : list Z) : list Z :=
  match levels with
  | [] => set
  | currentOccurence :: deeper =>
      match List.find (lastBefore set) currentOccurence with
      | Some occurence => greedyChain deeper (set ++ [occurence])
      | None => set
      end
  end.

Lemma greedyChain_length_ge levels set :
  length set ≤ length (greedyChain levels set).
Proof.
  revert set. induction levels as [|cur deeper IH]; intros set; simpl; [lia|].
  destruct (List.find _ cur); [|lia].
  specialize (IH (set ++ [z])). rewrite length_app in IH. simpl in IH. lia.
Qed.

Lemma greedyChain_settled levels set k :
  length (greedyChain levels set) = length set + k →
  greedyChain (drop k levels) (greedyChain levels set) = greedyChain levels set.
Proof.
  revert set k. induction levels as [|cur deeper IH]; intros set k Hlen.
  - by rewrite drop_nil.
  - simpl in *. destruct (List.find (lastBefore set) cur) as [p|] eqn:Hfind.
    + pose proof (greedyChain_length_ge deeper (set ++ [p])) as Hge.
      rewrite length_app in Hge. simpl in Hge.
      destruct k as [|k]; [lia|]. simpl. apply IH.
      rewrite length_app. simpl. lia.
    + assert (k = 0) as -> by lia. simpl. by rewrite Hfind.
Qed.

(** A chain longer than [depth] is settled when the level it waits at
    offers it nothing. *)
Definition settled (levels : list (list Z)) (depth : nat) (set : list Z) : Prop :=
  ∀ k, length set = depth + S k → greedyChain (drop (S k) levels) set = set.

(** One level of [extendCombinations], with the descent [descend] left
    open. *)
Definition extendLevel (descend : list (list Z) → list (list Z)) (depth : nat)
    (currentOccurence : list Z) (result : list (list Z)) : list (list Z) :=
  foldl (fun result occurence =>
    foldl (fun result i =>
      match result !! i with
      | Some set =>
          if (depth =? length set)%nat && lastBefore set occurence then
            descend (<[i := set ++ [occurence]]> result)
          else result
      | None => result
      end) result (seq 0 (length result)))
    result currentOccurence.

Lemma extendCombinations_unfold currentOccurence deeper depth result :
  extendCombinations (currentOccurence :: deeper) depth result
  = extendLevel
      (fun result => match deeper with
                     | [] => result
                     | _ :: _ => extendCombinations deeper (S depth) result
                     end)
      depth currentOccurence result.
Proof. reflexivity. Qed.

Section one_level.
Variable deeper : list (list Z).
Variable depth : nat.
Variable descend : list (list Z) → list (list Z).

Definition belowLevel (set : list Z) : list Z :=
  if (length set =? S depth)%nat then greedyChain deeper set else set.

Hypothesis descend_spec : ∀ result,
  Forall (settled deeper (S depth)) result → descend result = List.map belowLevel result.

Definition goodChain (set : list Z) : Prop :=
  ∀ k, length set = S depth + k → greedyChain (drop k deeper) set = set.

Definition growChain (occurence : Z) (set : list Z) : list Z :=
  if (depth =? length set)%nat && lastBefore set occurence
  then greedyChain deeper (set ++ [occurence]) else set.

Local Lemma good_settled set : goodChain set → settled deeper (S depth) set.
Proof. intros H k Hk. apply H. lia. Qed.

Local Lemma good_below set : goodChain set → belowLevel set = set.
Proof.
  intros H. unfold belowLevel. destruct (Nat.eqb_spec (length set) (S depth)) as [E|]; [|done].
  apply (H 0). lia.
Qed.

Local Lemma good_grow occurence set : goodChain set → goodChain (growChain occurence set).
Proof.
  intros H. unfold growChain.
  destruct ((depth =? length set)%nat && lastBefore set occurence) eqn:E; [|done].
  apply andb_true_iff in E as [E _]. apply Nat.eqb_eq in E.
  intros k Hk. apply greedyChain_settled. rewrite Hk, length_app. simpl. lia.
Qed.

Local Lemma forEach_spec occurence seen todo :
  Forall goodChain (seen ++ todo) →
  foldl (fun result i =>
    match result !! i with
    | Some set =>
        if (depth =? length set)%nat && lastBefore set occurence then
          descend (<[i := set ++ [occurence]]> result)
        else result
    | None => result
    end) (seen ++ todo) (seq (length seen) (length todo))
  = seen ++ List.map (growChain occurence) todo.
Proof.
  revert seen. induction todo as [|set todo IH]; intros seen Hgood; [done|].
  cbn [length seq foldl List.map].
  rewrite list_lookup_middle by done.
  assert (Forall goodChain ((seen ++ [growChain occurence set]) ++ todo)) as Hnext.
  { rewrite <- app_assoc. simpl. apply Forall_app in Hgood as [Hd Ht].
    apply Forall_app. split; [done|]. inversion Ht; subst.
    constructor; [by apply good_grow | done]. }
  assert (∀ st, st = (seen ++ [growChain occurence set]) ++ todo →
    foldl (fun result i =>
      match result !! i with
      | Some set0 =>
          if (depth =? length set0)%nat && lastBefore set0 occurence then
            descend (<[i := set0 ++ [occurence]]> result)
          else result
      | None => result
      end) st (seq (S (length seen)) (length todo))
    = seen ++ growChain occurence set :: List.map (growChain occurence) todo) as Hrest.
  { intros st ->. specialize (IH (seen ++ [growChain occurence set]) Hnext).
    rewrite length_app in IH. simpl in IH. rewrite Nat.add_1_r in IH.
    rewrite IH, <- app_assoc. done. }
  apply Hrest. unfold growChain at 1.
  destruct ((depth =? length set)%nat && lastBefore set occurence) eqn:E.
  - apply andb_true_iff in E as [E _]. apply Nat.eqb_eq in E.
    replace (<[length seen := set ++ [occurence]]> (seen ++ set :: todo))
      with (seen ++ (set ++ [occurence]) :: todo).
    2:{ rewrite insert_app_r_alt by lia. by rewrite Nat.sub_diag. }
    apply Forall_app in Hgood as [Hd Ht]. inversion Ht as [|? ? Hs Ht']; subst.
    rewrite descend_spec.
    + rewrite List.map_app. simpl. rewrite <- app_assoc. simpl. f_equal.
      * rewrite <- (List.map_id seen) at 2. apply List.map_ext_in.
        intros a Ha. apply good_below. rewrite Forall_forall in Hd. apply Hd.
        by apply list_elem_of_In.
      * f_equal.
        -- unfold belowLevel. rewrite length_app. simpl.
           replace (length set + 1 =? S depth)%nat with true; [done|].
           symmetry. apply Nat.eqb_eq. lia.
        -- rewrite <- (List.map_id todo) at 2. apply List.map_ext_in.
           intros a Ha. apply good_below. rewrite Forall_forall in Ht'. apply Ht'.
           by apply list_elem_of_In.
    + apply Forall_app. split.
      * eapply Forall_impl; [exact Hd | apply good_settled].
      * constructor.
        -- intros k Hk. rewrite length_app in Hk. simpl in Hk. lia.
        -- eapply Forall_impl; [exact Ht' | apply good_settled].
  - by rewrite <- app_assoc.
Qed.

Lemma extendLevel_spec currentOccurence result :
  Forall goodChain result →
  extendLevel descend depth currentOccurence result
  = List.map (fun set => if (length set =? depth)%nat
                         then greedyChain (currentOccurence :: deeper) set
                         else set) result.
Proof.
  unfold extendLevel. revert result.
  induction currentOccurence as [|occurence rest IH]; intros result Hgood.
  - simpl. rewrite <- (List.map_id result) at 1. apply List.map_ext.
    intros set. by destruct (length set =? depth)%nat.
  - cbn [foldl].
    pose proof (forEach_spec occurence [] result Hgood) as Hrow.
    simpl in Hrow. rewrite Hrow. rewrite IH.
    + rewrite List.map_map. apply List.map_ext. intros set. unfold growChain. simpl.
      rewrite (Nat.eqb_sym depth).
      destruct (Nat.eqb_spec (length set) depth) as [E|E]; simpl.
      * destruct (lastBefore set occurence) eqn:Hlt.
        -- pose proof (greedyChain_length_ge deeper (set ++ [occurence])) as Hge.
           rewrite length_app in Hge. simpl in Hge.
           destruct (Nat.eqb_spec (length (greedyChain deeper (set ++ [occurence]))) depth);
             [lia | done].
        -- destruct (Nat.eqb_spec (length set) depth); [done | lia].
      * destruct (Nat.eqb_spec (length set) depth); [lia | done].
    + rewrite Forall_forall in Hgood. apply Forall_forall. intros x Hx.
      apply list_elem_of_In, in_map_iff in Hx as (s & <- & Hs).
      apply good_grow, Hgood. by apply list_elem_of_In.
Qed.
End one_level.

Lemma extendCombinations_spec levels depth result :
  levels ≠ [] →
  Forall (settled levels depth) result →
  extendCombinations levels depth result
  = List.map (fun set => if (length set =? depth)%nat
                         then greedyChain levels set else set) result.
Proof.
  revert depth result. induction levels as [|cur deeper IH]; intros depth result Hne Hs; [done|].
  rewrite extendCombinations_unfold. apply extendLevel_spec.
  - intros st Hst. destruct deeper as [|next deeper'].
    + rewrite <- (List.map_id st) at 1. apply List.map_ext. intros set.
      unfold belowLevel. by destruct (length set =? S depth)%nat.
    + unfold belowLevel. by apply IH.
  - eapply Forall_impl; [exact Hs|]. intros set H k Hk.
    destruct k as [|k]; [apply (H 0); simpl; lia|].
    specialize (H (S k)). simpl in H. apply H. lia.
Qed.

Lemma getPossibleCombinations_spec currentOccurence deeper :
  getPossibleCombinations (currentOccurence :: deeper) []
  = Normal (List.filter (fun set => (length set =? S (length deeper))%nat)
              (List.map (fun occurence => greedyChain deeper [occurence])
                 currentOccurence)).
Proof.
  unfold getPossibleCombinations. f_equal. f_equal. simpl.
  destruct deeper as [|next deeper']; [done|].
  rewrite extendCombinations_spec; [|done|].
  - rewrite List.map_map. by apply List.map_ext.
  - apply Forall_forall. intros set Hin.
    apply list_elem_of_In, in_map_iff in Hin as (p & <- & _).
    intros k Hk. simpl in Hk. lia.
Qed.

(** ** What the indexer computes *)

(** The positions of [character] in [target] that are at least
    [startIndex], in ascending order; [position] is the position of the head
    of [target]. *)
Fixpoint occurrencesFrom (target : list codeUnit) (character : codeUnit)
    (position startIndex : Z) : list Z :=
  match target with
  | [] => []
  | unit :: rest =>
      (if (startIndex <=? position)%Z && N.eqb unit character
       then [position] else [])
      ++ occurrencesFrom rest character (position + 1)%Z startIndex
  end.

Lemma occurrencesFrom_start_irrelevant target character position s1 s2 :
  (s1 <= position)%Z → (s2 <= position)%Z →
  occurrencesFrom target character position s1
  = occurrencesFrom target character position s2.
Proof.
  revert position. induction target as [|u rest IH]; intros position H1 H2; [done|].
  simpl. rewrite (IH (position + 1)%Z) by lia.
  by replace (s1 <=? position)%Z with (s2 <=? position)%Z by lia.
Qed.

Lemma occurrencesFrom_none target character position startIndex :
  (0 <= position)%Z →
  (indexOfFrom target character position startIndex < 0)%Z →
  occurrencesFrom target character position startIndex = [].
Proof.
  revert position. induction target as [|u rest IH]; intros position Hp H; [done|].
  simpl in *. destruct ((startIndex <=? position)%Z && N.eqb u character); [lia|].
  simpl. apply IH; [lia | done].
Qed.

Lemma occurrencesFrom_some target character position startIndex :
  (0 <= position)%Z →
  (0 <= indexOfFrom target character position startIndex)%Z →
  occurrencesFrom target character position startIndex
  = indexOfFrom target character position startIndex
    :: occurrencesFrom target character position
         (indexOfFrom target character position startIndex + 1)%Z.
Proof.
  revert position. induction target as [|u rest IH]; intros position Hp H; [simpl in H; lia|].
  simpl in *. destruct ((startIndex <=? position)%Z && N.eqb u character) eqn:E.
  - replace (position + 1 <=? position)%Z with false by lia. simpl. f_equal.
    apply andb_true_iff in E as [E _].
    apply occurrencesFrom_start_irrelevant; lia.
  - simpl. rewrite IH by (done || lia).
    destruct (indexOfFrom_spec rest character (position + 1)%Z startIndex) as [[E1 E2]|E1];
      simpl in E1; [lia|].
    replace (indexOfFrom rest character (position + 1) startIndex + 1 <=? position)%Z
      with false by lia.
    done.
Qed.

Lemma findOccurences_spec target character startIndex result :
  findOccurences target character startIndex result
  = result ++ occurrencesFrom target character 0%Z startIndex.
Proof.
  funelim (findOccurences target character startIndex result).
  - rewrite H. unfold indexOf in *. rewrite <- app_assoc. simpl.
    rewrite (occurrencesFrom_some target character 0%Z startIndex); [done | lia | lia].
  - unfold indexOf in *.
    rewrite occurrencesFrom_none; [by rewrite app_nil_r | lia | lia].
Qed.

(** The unit of [target] at position [p], if [p] is a position of it. *)
Definition unitAt (target : list codeUnit) (p : Z) : option codeUnit :=
  if (p <? 0)%Z then None else target !! Z.to_nat p.

(** Strictly increasing sequences of positions. *)
Definition increasing (chain : list Z) : Prop := StronglySorted Z.lt chain.

Lemma occurrencesFrom_elem target character position startIndex p :
  p ∈ occurrencesFrom target character position startIndex
  ↔ (startIndex <= p ∧ position <= p)%Z
    ∧ target !! Z.to_nat (p - position) = Some character.
Proof.
  revert position. induction target as [|u rest IH]; intros position; simpl.
  - split; [by intros ?%elem_of_nil | by intros [_ ?]].
  - rewrite elem_of_app, IH. split.
    + intros [H | [[H1 H2] H3]].
      * destruct ((startIndex <=? position)%Z && N.eqb u character) eqn:E;
          [|by apply elem_of_nil in H].
        apply list_elem_of_singleton in H as ->.
        apply andb_true_iff in E as [E1 E2]. apply N.eqb_eq in E2 as ->.
        rewrite Z.sub_diag. simpl. split; [lia | done].
      * split; [lia|].
        replace (Z.to_nat (p - position)) with (S (Z.to_nat (p - (position + 1)))) by lia.
        done.
    + intros [[H1 H2] H3]. destruct (decide (p = position)) as [->|Hne].
      * left. rewrite Z.sub_diag in H3. simpl in H3. injection H3 as ->.
        replace (startIndex <=? position)%Z with true by lia.
        rewrite N.eqb_refl. simpl. by apply list_elem_of_singleton.
      * right. split; [lia|].
        replace (Z.to_nat (p - position)) with (S (Z.to_nat (p - (position + 1)))) in H3
          by lia.
        done.
Qed.

Lemma occurrencesFrom_increasing target character position startIndex :
  increasing (occurrencesFrom target character position startIndex).
Proof.
  revert position. induction target as [|u rest IH]; intros position; simpl.
  - constructor.
  - apply StronglySorted_app_2.
    + intros x1 x2 H1 H2. destruct (_ && _); [|by apply elem_of_nil in H1].
      apply list_elem_of_singleton in H1 as ->.
      apply occurrencesFrom_elem in H2. lia.
    + destruct (_ && _); repeat constructor.
    + apply IH.
Qed.

Lemma findOccurences_elem target character startIndex p :
  p ∈ findOccurences target character startIndex []
  ↔ (startIndex <= p)%Z ∧ unitAt target p = Some character.
Proof.
  rewrite findOccurences_spec. simpl. rewrite occurrencesFrom_elem. unfold unitAt.
  rewrite Z.sub_0_r. destruct (p <? 0)%Z eqn:E; [|intuition lia].
  split; [lia | by intros [_ ?]].
Qed.

Lemma findOccurences_increasing target character startIndex :
  increasing (findOccurences target character startIndex []).
Proof. rewrite findOccurences_spec. apply occurrencesFrom_increasing. Qed.

Lemma increasing_lookup chain i j a b :
  increasing chain → (i < j)%nat → chain !! i = Some a → chain !! j = Some b →
  (a < b)%Z.
Proof.
  intros Hs. revert i j. induction Hs as [|x l Hs IH Hall]; intros i j Hij Hi Hj.
  - by rewrite lookup_nil in Hi.
  - destruct j as [|j]; [lia|]. simpl in Hj. destruct i as [|i].
    + simpl in Hi. injection Hi as ->. rewrite Forall_forall in Hall.
      apply Hall. by eapply list_elem_of_lookup_2.
    + simpl in Hi. apply (IH i j); [lia | done | done].
Qed.

Lemma increasing_snoc chain p :
  increasing chain → (∀ x, last chain = Some x → (x < p)%Z) →
  increasing (chain ++ [p]).
Proof.
  intros Hs Hlast. apply StronglySorted_app_2; [| done | repeat constructor].
  intros x1 x2 H1 H2. apply list_elem_of_singleton in H2 as ->.
  destruct (last chain) as [final|] eqn:E.
  - specialize (Hlast final eq_refl).
    apply list_elem_of_lookup in H1 as [i Hi].
    rewrite last_lookup in E.
    destruct (decide (i = pred (length chain))) as [->|Hne].
    + rewrite Hi in E. injection E as ->. done.
    + pose proof (lookup_lt_Some _ _ _ Hi).
      assert (x1 < final)%Z; [|lia].
      apply (increasing_lookup chain i (pred (length chain))); [done | lia | done | done].
  - apply last_None in E. subst. by apply elem_of_nil in H1.
Qed.

Lemma increasing_head_le_last chain first final :
  increasing chain → head chain = Some first → last chain = Some final →
  (first <= final)%Z.
Proof.
  intros Hs Hh Hl. rewrite head_lookup in Hh. rewrite last_lookup in Hl.
  destruct (decide (0 = pred (length chain))) as [E|E].
  - rewrite <- E in Hl. rewrite Hh in Hl. injection Hl as ->. lia.
  - pose proof (lookup_lt_Some _ _ _ Hl).
    assert (first < final)%Z; [|lia].
    apply (increasing_lookup chain 0 (pred (length chain))); [done | lia | done | done].
Qed.

(** The occurrence lists as a function of the lowercased strings: the list
    of one character starts one past the first occurrence recorded for the
    character before it. *)
Fixpoint occurrenceLists (targetLowerCased characters : list codeUnit) (lowerBound : Z)
    : list (list Z) * bool :=
  match characters with
  | [] => ([], true)
  | character :: characters' =>
      match occurrencesFrom targetLowerCased character 0%Z lowerBound with
      | [] => ([], false)
      | first :: others =>
          let rest := occurrenceLists targetLowerCased characters' (first + 1)%Z in
          ((first :: others) :: rest.1, rest.2)
      end
  end.

(** The lower bound the loop computes from the lists pushed so far. *)
Definition boundAfter (occurencesPerChar : list (list Z)) : Z :=
  match last occurencesPerChar with
  | None => 0%Z
  | Some previous =>
      match head previous with
      | Some first => (first + 1)%Z
      | None => 0%Z
      end
  end.

Lemma indexOccurences_spec targetLowerCased characters i occurencesPerChar :
  length occurencesPerChar = i →
  indexOccurences targetLowerCased characters i occurencesPerChar
  = Normal
      (occurencesPerChar
         ++ (occurrenceLists targetLowerCased characters (boundAfter occurencesPerChar)).1,
       (occurrenceLists targetLowerCased characters (boundAfter occurencesPerChar)).2).
Proof.
  revert i occurencesPerChar.
  induction characters as [|c rest IH]; intros i occs Hlen; simpl.
  - by rewrite app_nil_r.
  - assert ((if (length occs =? 0)%nat then Normal 0%Z
             else match occs !! (i - 1)%nat with
                  | None => Throw
                  | Some previous =>
                      Normal (match head previous with
                              | Some first => first + 1
                              | None => 0
                              end)%Z
                  end) = Normal (boundAfter occs)) as ->.
    { unfold boundAfter. rewrite last_lookup, Hlen.
      destruct i as [|i].
      - apply length_zero_iff_nil in Hlen. subst. done.
      - replace (length occs =? 0)%nat with false by (symmetry; apply Nat.eqb_neq; lia).
        replace (S i - 1)%nat with i by lia. simpl.
        destruct (occs !! i) eqn:E; [done|].
        apply lookup_ge_None in E. lia. }
    rewrite findOccurences_spec. simpl.
    destruct (occurrencesFrom targetLowerCased c 0%Z (boundAfter occs)) as [|f others] eqn:E.
    + simpl. by rewrite app_nil_r.
    + simpl. rewrite (IH (S i)) by (rewrite length_app; simpl; lia).
      assert (boundAfter (occs ++ [f :: others]) = (f + 1)%Z) as ->.
      { unfold boundAfter. by rewrite last_snoc. }
      by rewrite <- app_assoc.
Qed.

(** The first position recorded for the character before index [i], plus
    one; [0] for the first character. *)
Definition lowerBoundAt (occurencesPerChar : list (list Z)) (i : nat) : Z :=
  match i with
  | 0 => 0%Z
  | S j =>
      match occurencesPerChar !! j with
      | Some (first :: _) => (first + 1)%Z
      | _ => 0%Z
      end
  end.

Lemma occurrenceLists_length targetLowerCased characters lowerBound :
  let lists := occurrenceLists targetLowerCased characters lowerBound in
  (length lists.1 ≤ length characters)
  ∧ (lists.2 = true → length lists.1 = length characters)
  ∧ (lists.2 = false → length lists.1 < length characters).
Proof.
  revert lowerBound. induction characters as [|c rest IH]; intros lowerBound; simpl.
  - repeat split; [lia | done].
  - destruct (occurrencesFrom targetLowerCased c 0%Z lowerBound) as [|f others]; simpl.
    + repeat split; [lia | done | lia].
    + destruct (IH (f + 1)%Z) as (H1 & H2 & H3). repeat split; [lia | |].
      * intros H. rewrite H2; done.
      * intros H. specialize (H3 H). lia.
Qed.

Lemma occurrenceLists_lookup targetLowerCased characters lowerBound i occurences :
  (occurrenceLists targetLowerCased characters lowerBound).1 !! i = Some occurences →
  ∃ character,
    characters !! i = Some character
    ∧ occurences ≠ []
    ∧ occurences
      = occurrencesFrom targetLowerCased character 0%Z
          (match i with
           | 0 => lowerBound
           | S _ =>
               lowerBoundAt
                 (occurrenceLists targetLowerCased characters lowerBound).1 i
           end).
Proof.
  revert lowerBound i. induction characters as [|c rest IH]; intros lowerBound i; simpl.
  - by rewrite lookup_nil.
  - destruct (occurrencesFrom targetLowerCased c 0%Z lowerBound) as [|f others] eqn:E; simpl.
    + by rewrite lookup_nil.
    + destruct i as [|i]; simpl.
      * intros [= <-]. exists c. by rewrite E.
      * intros H. destruct (IH _ _ H) as (ch & H1 & H2 & H3).
        exists ch. split; [done|]. split; [done|].
        rewrite H3 at 1. f_equal. by destruct i.
Qed.

Lemma occurrenceLists_stopped targetLowerCased characters lowerBound :
  let lists := occurrenceLists targetLowerCased characters lowerBound in
  lists.2 = false →
  ∃ character,
    characters !! length lists.1 = Some character
    ∧ occurrencesFrom targetLowerCased character 0%Z
        (match length lists.1 with
         | 0 => lowerBound
         | S _ => lowerBoundAt lists.1 (length lists.1)
         end) = [].
Proof.
  revert lowerBound. induction characters as [|c rest IH]; intros lowerBound; simpl; [done|].
  destruct (occurrencesFrom targetLowerCased c 0%Z lowerBound) as [|f others] eqn:E; simpl.
  - intros _. by exists c.
  - intros H. destruct (IH _ H) as (ch & H1 & H2). exists ch. split; [done|].
    rewrite <- H2. f_equal.
    by destruct (length (occurrenceLists targetLowerCased rest (f + 1)%Z).1).
Qed.

Lemma occurrencesFrom_elem_0 target character startIndex p :
  p ∈ occurrencesFrom target character 0%Z startIndex
  ↔ (startIndex <= p)%Z ∧ unitAt target p = Some character.
Proof.
  pose proof (findOccurences_elem target character startIndex p) as H.
  rewrite findOccurences_spec in H. exact H.
Qed.

(** The indexing loop never throws, and returns the lists of
    [occurrenceLists]. *)
Lemma indexOccurences_run targetLowerCased queryLowerCased :
  indexOccurences targetLowerCased queryLowerCased 0 []
  = Normal (occurrenceLists targetLowerCased queryLowerCased 0%Z).
Proof.
  rewrite indexOccurences_spec by done.
  change (boundAfter []) with 0%Z. rewrite app_nil_l.
  by destruct (occurrenceLists targetLowerCased queryLowerCased 0%Z).
Qed.

(** The character the indexing loop stopped at, one past the lists it
    pushed, occurs nowhere in the lowercased target at or after its lower
    bound. *)
Definition noOccurrence (targetLowerCased queryLowerCased : list codeUnit)
    (occurencesPerChar : list (list Z)) : Prop :=
  ∃ character,
    queryLowerCased !! length occurencesPerChar = Some character
    ∧ ∀ p, (lowerBoundAt occurencesPerChar (length occurencesPerChar) <= p)%Z →
           unitAt targetLowerCased p ≠ Some character.

Lemma occurrenceLists_noOccurrence targetLowerCased queryLowerCased :
  (occurrenceLists targetLowerCased queryLowerCased 0%Z).2 = false →
  noOccurrence targetLowerCased queryLowerCased
    (occurrenceLists targetLowerCased queryLowerCased 0%Z).1.
Proof.
  intros Hstop.
  destruct (occurrenceLists_stopped targetLowerCased queryLowerCased 0%Z Hstop)
    as (c & H1 & H2).
  exists c. split; [done|]. intros p Hp Hunit.
  assert (p ∈ occurrencesFrom targetLowerCased c 0%Z
            (match length (occurrenceLists targetLowerCased queryLowerCased 0%Z).1 with
             | 0 => 0%Z
             | S _ =>
                 lowerBoundAt (occurrenceLists targetLowerCased queryLowerCased 0%Z).1
                   (length (occurrenceLists targetLowerCased queryLowerCased 0%Z).1)
             end)) as Hin.
  { apply occurrencesFrom_elem_0. split; [|done].
    by destruct (length (occurrenceLists targetLowerCased queryLowerCased 0%Z).1). }
  rewrite H2 in Hin. by apply elem_of_nil in Hin.
Qed.

(** ** Chains *)

(** A complete candidate chain: one position from each occurrence list, in
    the order of the lists, strictly increasing from left to right. *)
Definition candidate (occurencesPerChar : list (list Z)) (chain : list Z) : Prop :=
  Forall2 (fun p occurences => p ∈ occurences) chain occurencesPerChar
  ∧ increasing chain.

(** The chains the enumerator returns, as a function of the lists. *)
Definition enumerated (occurencesPerChar : list (list Z)) : list (list Z) :=
  match occurencesPerChar with
  | [] => []
  | currentOccurence :: deeper =>
      List.filter (fun set => (length set =? S (length deeper))%nat)
        (List.map (fun occurence => greedyChain deeper [occurence]) currentOccurence)
  end.

Lemma getPossibleCombinations_enumerated occurencesPerChar :
  occurencesPerChar ≠ [] →
  getPossibleCombinations occurencesPerChar [] = Normal (enumerated occurencesPerChar).
Proof.
  destruct occurencesPerChar as [|cur deeper]; [done|]. intros _.
  apply getPossibleCombinations_spec.
Qed.

Lemma lastBefore_spec set p :
  lastBefore set p = true ↔ ∃ final, last set = Some final ∧ (final < p)%Z.
Proof.
  unfold lastBefore. destruct (last set) as [final|].
  - split.
    + intros H. exists final. split; [done | lia].
    + intros (f & [= <-] & H). lia.
  - split; [done | by intros (f & ? & _)].
Qed.

Lemma greedyChain_extends deeper set :
  increasing set →
  ∃ extension,
    greedyChain deeper set = set ++ extension
    ∧ Forall2 (fun p occurences => p ∈ occurences) extension
        (take (length extension) deeper)
    ∧ increasing (set ++ extension).
Proof.
  revert set. induction deeper as [|cur deeper IH]; intros set Hinc; simpl.
  - exists []. rewrite app_nil_r. by repeat split.
  - destruct (List.find (lastBefore set) cur) as [p|] eqn:Hfind.
    + apply find_some in Hfind as [Hin Hlt].
      apply lastBefore_spec in Hlt as (final & Hfinal & Hlt).
      destruct (IH (set ++ [p])) as (ext & H1 & H2 & H3).
      { apply increasing_snoc; [done|]. intros x Hx. rewrite Hfinal in Hx.
        injection Hx as <-. done. }
      exists (p :: ext). rewrite H1, <- !app_assoc. simpl. repeat split.
      * constructor; [by apply list_elem_of_In | done].
      * by rewrite <- app_assoc in H3.
    + exists []. rewrite app_nil_r. by repeat split.
Qed.

Lemma enumerated_candidate occurencesPerChar chain :
  chain ∈ enumerated occurencesPerChar → candidate occurencesPerChar chain.
Proof.
  destruct occurencesPerChar as [|cur deeper]; simpl; [by intros ?%elem_of_nil|].
  intros H. apply list_elem_of_In, filter_In in H as [H Hlen].
  apply in_map_iff in H as (p & <- & Hp). apply Nat.eqb_eq in Hlen.
  destruct (greedyChain_extends deeper [p]) as (ext & H1 & H2 & H3);
    [repeat constructor|].
  rewrite H1 in *. simpl in *. split; [|done].
  constructor; [by apply list_elem_of_In|].
  replace (length ext) with (length deeper) in H2 by lia.
  by rewrite firstn_all in H2.
Qed.

Lemma candidate_length occurencesPerChar chain :
  candidate occurencesPerChar chain → length chain = length occurencesPerChar.
Proof. intros [H _]. by eapply Forall2_length. Qed.

(** ** The score *)

Lemma extraCharsFrom_span rest total previous :
  extraCharsFrom rest total previous
  = (total + (default previous (last rest) - previous) - Z.of_nat (length rest))%Z.
Proof.
  revert total previous.
  induction rest as [|p rest IH]; intros total previous; cbn [extraCharsFrom].
  - simpl. lia.
  - rewrite IH. destruct rest as [|q rest'].
    + simpl. lia.
    + rewrite last_cons_cons.
      destruct (last (q :: rest')) eqn:E; [|by apply last_None in E].
      cbn [default length]. unfold id. lia.
Qed.

(** The score is the width of the chain minus the number of its steps. *)
Lemma calculateExtraChars_span chain first final :
  head chain = Some first → last chain = Some final →
  calculateExtraChars chain = (final - first - (Z.of_nat (length chain) - 1))%Z.
Proof.
  destruct chain as [|a rest]; [done|]. intros [= ->] Hlast.
  cbn [calculateExtraChars]. rewrite extraCharsFrom_span.
  destruct rest as [|b rest'].
  - injection Hlast as <-. simpl. lia.
  - rewrite last_cons_cons in Hlast. rewrite Hlast. cbn [default length]. unfold id. lia.
Qed.

(** Consecutive positions differ by one. *)
Definition contiguous (chain : list Z) : Prop :=
  ∀ i a b, chain !! i = Some a → chain !! S i = Some b → b = (a + 1)%Z.

Lemma extraCharsFrom_increasing rest total previous :
  increasing (previous :: rest) →
  (total <= extraCharsFrom rest total previous)%Z
  ∧ (extraCharsFrom rest total previous = total ↔ contiguous (previous :: rest)).
Proof.
  revert total previous. induction rest as [|p rest IH]; intros total previous Hinc; simpl.
  - split; [lia|]. split; [|done]. intros _ i a b Hi Hj.
    destruct i; simpl in *; by rewrite ?lookup_nil in Hj.
  - apply StronglySorted_inv in Hinc as [Hinc Hall].
    assert (previous < p)%Z as Hlt by (by inversion Hall).
    destruct (IH (total + (p - previous - 1))%Z p Hinc) as [H1 H2].
    split; [lia|]. split.
    + intros E. assert (p = previous + 1)%Z as -> by lia.
      replace (total + (previous + 1 - previous - 1))%Z with total in * by lia.
      apply H2 in E. intros [|i] a b Hi Hj; simpl in *.
      * by injection Hi as <-; injection Hj as <-.
      * by apply (E i).
    + intros Hc. assert (p = previous + 1)%Z as -> by (by apply (Hc 0 previous p)).
      replace (total + (previous + 1 - previous - 1))%Z with total in * by lia.
      apply H2. intros i a b Hi Hj. by apply (Hc (S i)).
Qed.

Lemma calculateExtraChars_increasing chain :
  increasing chain →
  (0 <= calculateExtraChars chain)%Z
  ∧ (calculateExtraChars chain = 0%Z ↔ contiguous chain).
Proof.
  destruct chain as [|a rest]; simpl.
  - intros _. split; [lia|]. split; [|done]. intros _ i a b Hi. by rewrite lookup_nil in Hi.
  - apply extraCharsFrom_increasing.
Qed.

(** ** The selection loop *)

Section selection.
Variable targetLowerCased : list codeUnit.
Variable characterLimit : gmap codeUnit Z.

(** The chains that survive the character-limit filter, in iteration
    order. *)
Definition survivors (combinations : list (list Z)) : list (list Z) :=
  List.filter
    (fun set => hasLessThanMaximumCharacters targetLowerCased set characterLimit)
    combinations.

Lemma selectBest_no_survivor combinations bestCombination :
  survivors combinations = [] →
  selectBest targetLowerCased characterLimit combinations bestCombination
  = bestCombination.
Proof.
  induction combinations as [|set rest IH]; simpl; [done|].
  unfold survivors in *. simpl.
  destruct (hasLessThanMaximumCharacters targetLowerCased set characterLimit);
    [done | apply IH].
Qed.

Lemma selectBest_running combinations b s e set :
  selectBest targetLowerCased characterLimit combinations (Some (b, s)) = Some (e, set) →
  (e <= b)%Z
  ∧ (e = 0%Z ∨ ∀ c, c ∈ survivors combinations → (e <= calculateExtraChars c)%Z)
  ∧ ((e, set) = (b, s)
     ∨ (e < b)%Z
       ∧ ∃ earlier later,
           survivors combinations = earlier ++ set :: later
           ∧ e = calculateExtraChars set
           ∧ ∀ c, c ∈ earlier → (e < calculateExtraChars c)%Z).
Proof.
  revert b s. induction combinations as [|c rest IH]; intros b s; simpl.
  - intros [= <- <-]. split; [lia|]. split; [|by left].
    right. by intros c ?%elem_of_nil.
  - unfold survivors in *. simpl.
    destruct (hasLessThanMaximumCharacters targetLowerCased c characterLimit);
      simpl; [|apply IH].
    destruct (calculateExtraChars c <? b)%Z eqn:Hlt; simpl.
    + destruct (calculateExtraChars c =? 0)%Z eqn:Hz.
      * intros [= <- <-]. split; [lia|]. split; [left; lia|]. right.
        split; [lia|]. exists [], (List.filter
          (fun set => hasLessThanMaximumCharacters targetLowerCased set characterLimit)
          rest).
        repeat split. by intros c' ?%elem_of_nil.
      * intros H. destruct (IH _ _ H) as (H1 & H2 & H3).
        split; [lia|]. split.
        { destruct H2 as [H2|H2]; [by left|]. right. intros c' Hc'.
          apply elem_of_cons in Hc' as [->|Hc']; [done | by apply H2]. }
        right. split; [destruct H3 as [[= -> ->]|[? _]]; lia|].
        destruct H3 as [[= -> ->]|(Hlt' & earlier & later & E1 & E2 & E3)].
        -- exists [], (List.filter
             (fun set => hasLessThanMaximumCharacters targetLowerCased set characterLimit)
             rest).
           repeat split. by intros c' ?%elem_of_nil.
        -- exists (c :: earlier), later. rewrite E1. repeat split; [done|].
           intros c' Hc'. apply elem_of_cons in Hc' as [->|Hc']; [done | by apply E3].
    + destruct (b =? 0)%Z eqn:Hz.
      * intros [= <- <-]. split; [lia|]. split; [left; lia | by left].
      * intros H. destruct (IH _ _ H) as (H1 & H2 & H3).
        split; [lia|]. split.
        { destruct H2 as [H2|H2]; [by left|]. right. intros c' Hc'.
          apply elem_of_cons in Hc' as [->|Hc']; [lia | by apply H2]. }
        destruct H3 as [H3|(Hlt' & earlier & later & E1 & E2 & E3)]; [by left|].
        right. split; [done|]. exists (c :: earlier), later. rewrite E1.
        repeat split; [done|].
        intros c' Hc'. apply elem_of_cons in Hc' as [->|Hc']; [lia | by apply E3].
Qed.

Lemma selectBest_first_minimum combinations e set :
  selectBest targetLowerCased characterLimit combinations None = Some (e, set) →
  ∃ earlier later,
    survivors combinations = earlier ++ set :: later
    ∧ e = calculateExtraChars set
    ∧ (∀ c, c ∈ earlier → (e < calculateExtraChars c)%Z)
    ∧ (e = 0%Z ∨ ∀ c, c ∈ later → (e <= calculateExtraChars c)%Z).
Proof.
  induction combinations as [|c rest IH]; simpl; [done|].
  unfold survivors in *. simpl.
  destruct (hasLessThanMaximumCharacters targetLowerCased c characterLimit);
    simpl; [|apply IH].
  destruct (calculateExtraChars c =? 0)%Z eqn:Hz.
  - intros [= <- <-]. eexists [], _. repeat split; [|left; lia].
    by intros c' ?%elem_of_nil.
  - intros H. apply selectBest_running in H as (H1 & H2 & H3).
    destruct H3 as [[= -> ->]|(Hlt & earlier & later & E1 & E2 & E3)].
    + eexists [], _. repeat split; [|done]. by intros c' ?%elem_of_nil.
    + exists (c :: earlier), later. unfold survivors in E1. rewrite E1.
      repeat split; [done | |].
      * intros c' Hc'. apply elem_of_cons in Hc' as [->|Hc']; [done | by apply E3].
      * destruct H2 as [H2|H2]; [by left|]. right. intros c' Hc'. apply H2.
        unfold survivors. rewrite E1. apply elem_of_app. right. by apply elem_of_cons; right.
Qed.

Lemma selectBest_none combinations :
  selectBest targetLowerCased characterLimit combinations None = None
  ↔ survivors combinations = [].
Proof.
  split; [|apply selectBest_no_survivor].
  induction combinations as [|c rest IH]; simpl; [done|].
  unfold survivors in *. simpl.
  destruct (hasLessThanMaximumCharacters targetLowerCased c characterLimit);
    simpl; [|apply IH].
  destruct (calculateExtraChars c =? 0)%Z; [done|].
  intros H. exfalso. clear IH. revert H.
  generalize (calculateExtraChars c, c). clear c.
  induction rest as [|c rest IH]; intros best; simpl; [done|].
  destruct (hasLessThanMaximumCharacters targetLowerCased c characterLimit);
    simpl; [|apply IH].
  match goal with |- context [if ?b then Some ?x else _] => destruct b; [done|] end.
  apply IH.
Qed.

End selection.

(** ** The shape of a call *)

(** The record built from the best combination. *)
Definition resultOf (target : list codeUnit) (bestCombination : Z * list Z) : MatchResult :=
  {| offset := firstOf bestCombination.2;
     positions := bestCombination.2;
     extraChars := bestCombination.1;
     trailingChars := Z.of_nat (length target) - (lastOf bestCombination.2 + 1) |}.

Lemma matchFuzzy_degenerate query target characterLimit :
  query = [] ∨ target = [] ∨ length target < length query →
  matchFuzzy query target characterLimit = Normal None.
Proof.
  intros H. unfold matchFuzzy.
  destruct (length target =? 0)%nat eqn:E1; [done|].
  destruct (length query =? 0)%nat eqn:E2; [done|].
  destruct (length target <? length query)%nat eqn:E3; [done|]. exfalso.
  apply Nat.eqb_neq in E1, E2. apply Nat.ltb_ge in E3.
  destruct H as [->|[->|H]]; simpl in *; lia.
Qed.

(** Past the guard, the call is decided by the occurrence lists.  A query
    whose lowercase form were empty would leave no list at all, and the
    enumerator would throw on reading [characterPositions[0]]. *)
Lemma matchFuzzy_past_guard query target characterLimit :
  query ≠ [] → target ≠ [] → length query ≤ length target →
  matchFuzzy query target characterLimit
  = let lists := occurrenceLists (toLowerCase target) (toLowerCase query) 0%Z in
    if lists.2 then
      match lists.1 with
      | [] => Throw
      | _ :: _ =>
          match selectBest (toLowerCase target) characterLimit (enumerated lists.1) None
          with
          | Some bestCombination => Normal (Some (resultOf target bestCombination))
          | None => Normal None
          end
      end
    else Normal None.
Proof.
  intros Hq Ht Hlen. unfold matchFuzzy.
  replace (length target =? 0)%nat with false
    by (symmetry; apply Nat.eqb_neq; destruct target; simpl; [done | lia]).
  replace (length query =? 0)%nat with false
    by (symmetry; apply Nat.eqb_neq; destruct query; simpl; [done | lia]).
  replace (length target <? length query)%nat with false
    by (symmetry; apply Nat.ltb_ge; lia).
  simpl. rewrite indexOccurences_run.
  destruct (occurrenceLists (toLowerCase target) (toLowerCase query) 0%Z)
    as [occs [|]]; simpl; [|done].
  destruct occs as [|cur deeper]; [done|].
  by rewrite getPossibleCombinations_enumerated.
Qed.

Lemma occurrenceLists_nonempty targetLowerCased queryLowerCased :
  queryLowerCased ≠ [] →
  (occurrenceLists targetLowerCased queryLowerCased 0%Z).2 = true →
  (occurrenceLists targetLowerCased queryLowerCased 0%Z).1 ≠ [].
Proof.
  intros Hq Hdone E.
  destruct (occurrenceLists_length targetLowerCased queryLowerCased 0%Z) as (_ & Hfull & _).
  specialize (Hfull Hdone). rewrite E in Hfull.
  destruct queryLowerCased; simpl in *; [done | lia].
Qed.

Lemma matchFuzzy_nondegenerate query target characterLimit :
  query ≠ [] → target ≠ [] → length query ≤ length target →
  toLowerCase query ≠ [] →
  matchFuzzy query target characterLimit
  = let lists := occurrenceLists (toLowerCase target) (toLowerCase query) 0%Z in
    if lists.2 then
      match selectBest (toLowerCase target) characterLimit (enumerated lists.1) None with
      | Some bestCombination => Normal (Some (resultOf target bestCombination))
      | None => Normal None
      end
    else Normal None.
Proof.
  intros Hq Ht Hlen Hlow. rewrite matchFuzzy_past_guard by done. simpl.
  destruct (occurrenceLists (toLowerCase target) (toLowerCase query) 0%Z).2 eqn:Hdone;
    [|done].
  pose proof (occurrenceLists_nonempty _ _ Hlow Hdone) as Hne.
  by destruct (occurrenceLists (toLowerCase target) (toLowerCase query) 0%Z).1.
Qed.

Lemma matchFuzzy_total query target characterLimit :
  (query ≠ [] → toLowerCase query ≠ []) →
  matchFuzzy query target characterLimit = Normal None
  ∨ ∃ result, matchFuzzy query target characterLimit = Normal (Some result).
Proof.
  intros Hlow.
  destruct (decide (query = [])) as [->|Hq]; [left; apply matchFuzzy_degenerate; by left|].
  destruct (decide (target = [])) as [->|Ht];
    [left; apply matchFuzzy_degenerate; right; by left|].
  destruct (decide (length target < length query)) as [Hlt|Hge];
    [left; apply matchFuzzy_degenerate; right; by right|].
  rewrite matchFuzzy_nondegenerate by (done || lia || auto). simpl.
  destruct (occurrenceLists _ _ _).2; [|by left].
  destruct (selectBest _ _ _ _); [right; eauto | by left].
Qed.

Lemma matchFuzzy_some query target characterLimit result :
  matchFuzzy query target characterLimit = Normal (Some result) →
  let lists := occurrenceLists (toLowerCase target) (toLowerCase query) 0%Z in
  query ≠ [] ∧ target ≠ [] ∧ length query ≤ length target
  ∧ lists.2 = true
  ∧ length lists.1 = length (toLowerCase query)
  ∧ selectBest (toLowerCase target) characterLimit (enumerated lists.1) None
    = Some (extraChars result, positions result)
  ∧ result = resultOf target (extraChars result, positions result).
Proof.
  intros H.
  destruct (decide (query = [])) as [->|Hq];
    [rewrite matchFuzzy_degenerate in H by (by left); done|].
  destruct (decide (target = [])) as [->|Ht];
    [rewrite matchFuzzy_degenerate in H by (right; by left); done|].
  destruct (decide (length target < length query)) as [Hlt|Hge];
    [rewrite matchFuzzy_degenerate in H by (right; by right); done|].
  rewrite matchFuzzy_past_guard in H by (done || lia). simpl in *.
  pose proof (occurrenceLists_length (toLowerCase target) (toLowerCase query) 0%Z)
    as (_ & Hfull & _). simpl in Hfull.
  destruct (occurrenceLists _ _ _).2; [|done].
  destruct (occurrenceLists _ _ _).1 as [|cur deeper] eqn:E1; [done|].
  destruct (selectBest _ _ _ _) as [[e set]|] eqn:E; [|done].
  injection H as <-. simpl. repeat split; (done || lia || auto).
Qed.

(** A call that returns a result had a non-empty lowercased query and
    built at least one list. *)
Lemma matchFuzzy_some_lists query target characterLimit result :
  matchFuzzy query target characterLimit = Normal (Some result) →
  toLowerCase query ≠ []
  ∧ (occurrenceLists (toLowerCase target) (toLowerCase query) 0%Z).1 ≠ [].
Proof.
  intros H.
  pose proof (matchFuzzy_some _ _ _ _ H) as (Hq & Ht & Hlen & Hdone & Hfull & _).
  rewrite matchFuzzy_past_guard in H by done. simpl in *. rewrite Hdone in H.
  destruct (occurrenceLists _ _ _).1 as [|cur deeper] eqn:E1; [done|].
  split; [|done]. intros E. rewrite E in Hfull. done.
Qed.

(** The chain a successful call returns is an enumerated chain that passes
    the filter. *)
Lemma matchFuzzy_some_chain query target characterLimit result :
  matchFuzzy query target characterLimit = Normal (Some result) →
  let occurencesPerChar :=
    (occurrenceLists (toLowerCase target) (toLowerCase query) 0%Z).1 in
  candidate occurencesPerChar (positions result)
  ∧ positions result ∈ enumerated occurencesPerChar
  ∧ hasLessThanMaximumCharacters (toLowerCase target) (positions result) characterLimit
    = true
  ∧ extraChars result = calculateExtraChars (positions result).
Proof.
  intros H. apply matchFuzzy_some in H as (_ & _ & _ & _ & _ & H & _).
  apply selectBest_first_minimum in H as (earlier & later & H1 & H2 & _).
  assert (positions result ∈ survivors (toLowerCase target) characterLimit
            (enumerated (occurrenceLists (toLowerCase target) (toLowerCase query) 0%Z).1))
    as Hin.
  { rewrite H1. apply elem_of_app. right. by apply elem_of_cons; left. }
  apply list_elem_of_In, filter_In in Hin as [Hin Hok].
  apply list_elem_of_In in Hin. simpl.
  split; [by apply enumerated_candidate | done].
Qed.

Lemma candidate_lookup targetLowerCased characters lowerBound chain i p :
  candidate (occurrenceLists targetLowerCased characters lowerBound).1 chain →
  chain !! i = Some p →
  ∃ character,
    characters !! i = Some character ∧ unitAt targetLowerCased p = Some character.
Proof.
  intros [Hall _] Hi.
  destruct (Forall2_lookup_l _ _ _ _ _ Hall Hi) as (l & Hl & Hp).
  destruct (occurrenceLists_lookup _ _ _ _ _ Hl) as (c & H1 & _ & H3).
  exists c. split; [done|]. rewrite H3 in Hp.
  by apply occurrencesFrom_elem_0 in Hp as [_ ?].
Qed.

(** X14. When [matchFuzzy] returns a result, its positions are as many as
    the lowercased query has characters (as many as the query has, then,
    whenever lowercasing keeps the length of the query), they are strictly
    increasing, and the character of the lowercased target at [positions[i]]
    is character [i] of the lowercased query. *)
Theorem positions_match (query target : list codeUnit) (characterLimit : gmap codeUnit Z)
    (result : MatchResult) :
  matchFuzzy query target characterLimit = Normal (Some result) →
  length (positions result) = length (toLowerCase query)
  ∧ (length (toLowerCase query) = length query →
     length (positions result) = length query)
  ∧ increasing (positions result)
  ∧ ∀ i p, positions result !! i = Some p →
      ∃ character,
        toLowerCase query !! i = Some character
        ∧ unitAt (toLowerCase target) p = Some character.
Proof.
  intros H. pose proof (matchFuzzy_some _ _ _ _ H) as (_ & _ & _ & _ & Hlen & _).
  apply matchFuzzy_some_chain in H as (Hcand & _). simpl in *.
  assert (length (positions result) = length (toLowerCase query)) as Hpos
    by (by rewrite (candidate_length _ _ Hcand)).
  split; [done|]. split; [congruence|].
  split; [by destruct Hcand|].
  intros i p Hi. by eapply candidate_lookup.
Qed.

(** ** The fields of a result *)

(** The sum, for [i] from [1] to [length chain - 1], of
    [chain[i] - chain[i - 1] - 1]. *)
Definition gapSum (chain : list Z) : Z :=
  foldr Z.add 0%Z
    (List.map (fun i => chain !!! i - chain !!! (i - 1)%nat - 1)%Z
       (seq 1 (length chain - 1))).

Lemma gapSum_cons a b rest :
  gapSum (a :: b :: rest) = ((b - a - 1) + gapSum (b :: rest))%Z.
Proof.
  unfold gapSum. cbn [length]. rewrite !Nat.sub_succ, !Nat.sub_0_r.
  cbn [seq List.map foldr]. rewrite <- seq_shift, List.map_map.
  f_equal. f_equal. apply List.map_ext_in. intros i Hi. apply in_seq in Hi.
  destruct i as [|i]; [lia|]. simpl. by rewrite Nat.sub_0_r.
Qed.

Lemma extraCharsFrom_gapSum rest total previous :
  extraCharsFrom rest total previous = (total + gapSum (previous :: rest))%Z.
Proof.
  revert total previous. induction rest as [|p rest IH]; intros total previous.
  - unfold gapSum. simpl. lia.
  - cbn [extraCharsFrom]. rewrite IH, gapSum_cons. lia.
Qed.

Lemma calculateExtraChars_gapSum chain : calculateExtraChars chain = gapSum chain.
Proof.
  destruct chain as [|first rest]; [done|]. simpl.
  by rewrite extraCharsFrom_gapSum.
Qed.

Lemma unitAt_bounds target p character :
  unitAt target p = Some character → (0 <= p < Z.of_nat (length target))%Z.
Proof.
  unfold unitAt. destruct (p <? 0)%Z eqn:E; [done|]. intros H.
  apply lookup_lt_Some in H. lia.
Qed.

(** X15. A result of [matchFuzzy] has [offset] equal to [positions[0]],
    [trailingChars] equal to the target length minus the last position plus
    one, and [extraChars] equal to the sum of the gaps between consecutive
    positions; [extraChars] is not negative, and is [0] exactly when the
    positions are contiguous; [trailingChars] is at least the target length
    minus the length of the lowercased target, so that it is not negative
    whenever lowercasing does not lengthen the target. *)
Theorem result_fields (query target : list codeUnit) (characterLimit : gmap codeUnit Z)
    (result : MatchResult) :
  matchFuzzy query target characterLimit = Normal (Some result) →
  head (positions result) = Some (offset result)
  ∧ (∃ final, last (positions result) = Some final
              ∧ trailingChars result = (Z.of_nat (length target) - (final + 1))%Z)
  ∧ extraChars result = gapSum (positions result)
  ∧ (0 <= extraChars result)%Z
  ∧ (Z.of_nat (length target) - Z.of_nat (length (toLowerCase target))
     <= trailingChars result)%Z
  ∧ (length (toLowerCase target) ≤ length target → (0 <= trailingChars result)%Z)
  ∧ (extraChars result = 0%Z ↔ contiguous (positions result)).
Proof.
  intros H.
  pose proof (matchFuzzy_some _ _ _ _ H) as (Hq & _ & _ & _ & Hlen & _ & Hres).
  pose proof (matchFuzzy_some_chain _ _ _ _ H) as (Hcand & _ & _ & Hscore).
  pose proof (matchFuzzy_some_lists _ _ _ _ H) as [Hlow _].
  simpl in *.
  pose proof (candidate_length _ _ Hcand) as Hlen'. rewrite Hlen in Hlen'.
  destruct (positions result) as [|first rest] eqn:Hpos;
    [destruct (toLowerCase query); simpl in *; [done | lia]|].
  destruct (last (first :: rest)) as [final|] eqn:Hlast; [|by apply last_None in Hlast].
  assert (offset result = first) as Hoff by (by rewrite Hres).
  assert (trailingChars result = (Z.of_nat (length target) - (final + 1))%Z) as Htrail.
  { rewrite Hres. unfold resultOf, lastOf. cbn [trailingChars snd]. by rewrite Hlast. }
  assert (final < Z.of_nat (length (toLowerCase target)))%Z as Hbound.
  { rewrite last_lookup in Hlast.
    destruct (candidate_lookup _ _ _ _ _ _ Hcand Hlast) as (c & _ & Hc).
    apply unitAt_bounds in Hc. lia. }
  destruct Hcand as [_ Hinc].
  destruct (calculateExtraChars_increasing _ Hinc) as [Hge Hzero].
  rewrite Hoff, Htrail, Hscore. repeat apply conj.
  - done.
  - by exists final.
  - apply calculateExtraChars_gapSum.
  - done.
  - lia.
  - lia.
  - apply Hzero.
  - apply Hzero.
Qed.

(** ** The comparator *)

(** The three keys of a result, compared from left to right. *)
Definition ranksBefore (a b : MatchResult) : Prop :=
  (extraChars a < extraChars b)%Z
  ∨ extraChars a = extraChars b
    ∧ ((offset a < offset b)%Z
       ∨ offset a = offset b ∧ (trailingChars a < trailingChars b)%Z).

Definition sameRank (a b : MatchResult) : Prop :=
  extraChars a = extraChars b ∧ offset a = offset b
  ∧ trailingChars a = trailingChars b.

Ltac sort_cases :=
  unfold sort, ranksBefore, sameRank;
  repeat match goal with
         | |- context [(?x =? ?y)%Z] => destruct (Z.eqb_spec x y)
         | |- context [(?x <? ?y)%Z] => destruct (Z.ltb_spec x y)
         end;
  simpl; try lia.

Lemma sort_before a b : sort a b = (-1)%Z ↔ ranksBefore a b.
Proof. sort_cases. Qed.

Lemma sort_after a b : sort a b = 1%Z ↔ ranksBefore b a.
Proof. sort_cases. Qed.

Lemma sort_equal a b : sort a b = 0%Z ↔ sameRank a b.
Proof. sort_cases. Qed.

Lemma ranksBefore_trans a b c : ranksBefore a b → ranksBefore b c → ranksBefore a c.
Proof. unfold ranksBefore. lia. Qed.

(** C8. [sort] answers [-1], [0] or [1]; it answers [-1] exactly when the
    first result comes before the second in the order by ascending
    [extraChars], then ascending [offset], then ascending [trailingChars],
    [1] exactly when the second comes before the first, and [0] exactly when
    the three fields agree; swapping the arguments negates the answer and
    "before" is transitive, so it is a total order on the three keys; and a
    result with [extraChars = 0], [offset = 5] comes before one with
    [extraChars = 1], [offset = 0]. *)
Theorem sort_total_order :
  (∀ a b, sort a b = (-1)%Z ∨ sort a b = 0%Z ∨ sort a b = 1%Z)
  ∧ (∀ a b, sort a b = (-1)%Z ↔ ranksBefore a b)
  ∧ (∀ a b, sort a b = 1%Z ↔ ranksBefore b a)
  ∧ (∀ a b, sort a b = 0%Z ↔ sameRank a b)
  ∧ (∀ a b, sort b a = (- sort a b)%Z)
  ∧ (∀ a b c, sort a b = (-1)%Z → sort b c = (-1)%Z → sort a c = (-1)%Z)
  ∧ (∀ a b c, sort a b = 0%Z → sort b c = 0%Z → sort a c = 0%Z)
  ∧ (∀ a b, extraChars a = 0%Z → offset a = 5%Z →
            extraChars b = 1%Z → offset b = 0%Z → sort a b = (-1)%Z).
Proof.
  repeat apply conj.
  - intros a b. sort_cases.
  - apply sort_before.
  - apply sort_after.
  - apply sort_equal.
  - intros a b. sort_cases.
  - intros a b c. rewrite !sort_before. apply ranksBefore_trans.
  - intros a b c. rewrite !sort_equal. unfold sameRank. intuition congruence.
  - intros a b ? ? ? ?. apply sort_before. unfold ranksBefore. lia.
Qed.

(** ** Selection *)


(** ** Matching a string against itself *)

Lemma occurrencesFrom_head target character k :
  target !! k = Some character →
  head (occurrencesFrom target character 0%Z (Z.of_nat k)) = Some (Z.of_nat k).
Proof.
  intros Hk.
  assert (Z.of_nat k ∈ occurrencesFrom target character 0%Z (Z.of_nat k)) as Hin.
  { apply occurrencesFrom_elem. rewrite Z.sub_0_r, Nat2Z.id. split; [lia | done]. }
  pose proof (occurrencesFrom_increasing target character 0%Z (Z.of_nat k)) as Hinc.
  destruct (occurrencesFrom target character 0%Z (Z.of_nat k)) as [|f others] eqn:E;
    [by apply elem_of_nil in Hin|].
  simpl. f_equal.
  assert (f ∈ occurrencesFrom target character 0%Z (Z.of_nat k)) as Hf
    by (rewrite E; by apply elem_of_cons; left).
  apply occurrencesFrom_elem in Hf as [[Hf _] _].
  apply StronglySorted_inv in Hinc as [_ Hall]. rewrite Forall_forall in Hall.
  apply elem_of_cons in Hin as [Hin|Hin]; [done|].
  apply Hall in Hin. lia.
Qed.

Lemma occurrenceLists_self lowered characters k :
  drop k lowered = characters →
  let lists := occurrenceLists lowered characters (Z.of_nat k) in
  lists.2 = true
  ∧ length lists.1 = length characters
  ∧ ∀ j occurences, lists.1 !! j = Some occurences →
      head occurences = Some (Z.of_nat (k + j)).
Proof.
  revert k. induction characters as [|c rest IH]; intros k Hdrop; simpl.
  - repeat split. intros j l. by rewrite lookup_nil.
  - assert (lowered !! k = Some c) as Hk.
    { rewrite <- (Nat.add_0_r k), <- lookup_drop, Hdrop. done. }
    assert (drop (S k) lowered = rest) as Hrest.
    { rewrite <- (Nat.add_1_r k), <- drop_drop, Hdrop. done. }
    pose proof (occurrencesFrom_head lowered c k Hk) as Hhead.
    destruct (occurrencesFrom lowered c 0%Z (Z.of_nat k)) as [|f others]; [done|].
    injection Hhead as ->. simpl.
    replace (Z.of_nat k + 1)%Z with (Z.of_nat (S k)) by lia.
    destruct (IH (S k) Hrest) as (H1 & H2 & H3). repeat split; [done | by rewrite H2 |].
    intros [|j] l; simpl.
    + intros [= <-]. simpl. by rewrite Nat.add_0_r.
    + intros Hl. rewrite (H3 _ _ Hl). do 2 f_equal. lia.
Qed.

Lemma greedyChain_heads deeper set k :
  last set = Some (Z.of_nat k - 1)%Z →
  (∀ j occurences, deeper !! j = Some occurences →
     head occurences = Some (Z.of_nat (k + j))) →
  greedyChain deeper set = set ++ List.map Z.of_nat (seq k (length deeper)).
Proof.
  revert set k. induction deeper as [|cur deeper IH]; intros set k Hlast Hheads; simpl.
  - by rewrite app_nil_r.
  - pose proof (Hheads 0 cur eq_refl) as Hcur. rewrite Nat.add_0_r in Hcur.
    destruct cur as [|f others]; [done|]. injection Hcur as ->. simpl.
    assert (lastBefore set (Z.of_nat k) = true) as ->.
    { apply lastBefore_spec. eexists. split; [done | lia]. }
    rewrite (IH (set ++ [Z.of_nat k]) (S k)).
    + by rewrite <- app_assoc.
    + rewrite last_snoc. f_equal. lia.
    + intros j l Hl. rewrite (Hheads (S j) l Hl). do 2 f_equal. lia.
Qed.

Lemma hasLessThanMaximumCharacters_empty target foundChars :
  hasLessThanMaximumCharacters target foundChars ∅ = true.
Proof. unfold hasLessThanMaximumCharacters. by rewrite map_to_list_empty. Qed.

(** The value of a self-match: the positions run over the lowercased
    string, and [trailingChars] is what the lowercased string is shorter
    by. *)
Lemma self_match_value (s : list codeUnit) :
  s ≠ [] → toLowerCase s ≠ [] →
  matchFuzzy s s ∅
  = Normal (Some {| offset := 0;
                    positions := List.map Z.of_nat (seq 0 (length (toLowerCase s)));
                    extraChars := 0;
                    trailingChars :=
                      Z.of_nat (length s) - Z.of_nat (length (toLowerCase s)) |}).
Proof.
  intros Hs Hlow. rewrite matchFuzzy_nondegenerate by done. simpl.
  destruct (occurrenceLists_self (toLowerCase s) (toLowerCase s) 0 eq_refl)
    as (Hdone & Hlen & Hheads).
  change (Z.of_nat 0) with 0%Z in *. rewrite Hdone.
  set (n := length (toLowerCase s)) in *.
  assert (n ≠ 0) as Hn by (unfold n; destruct (toLowerCase s); simpl; [done | lia]).
  destruct (occurrenceLists (toLowerCase s) (toLowerCase s) 0%Z).1
    as [|cur deeper] eqn:E; [simpl in *; lia|].
  pose proof (Hheads 0 cur eq_refl) as Hcur.
  change (Z.of_nat (0 + 0)) with 0%Z in Hcur.
  destruct cur as [|f others]; [done|]. injection Hcur as ->.
  assert (greedyChain deeper [0%Z] = List.map Z.of_nat (seq 0 n)) as Hchain.
  { rewrite (greedyChain_heads deeper [0%Z] 1); [|done|].
    - simpl in Hlen. rewrite <- Hlen. done.
    - intros j l Hl. apply (Hheads (S j) l Hl). }
  assert (last (List.map Z.of_nat (seq 0 n)) = Some (Z.of_nat n - 1)%Z) as Hlast.
  { destruct n as [|m]; [done|].
    rewrite seq_S, List.map_app. cbn [List.map]. rewrite last_snoc. f_equal. lia. }
  assert (head (List.map Z.of_nat (seq 0 n)) = Some 0%Z) as Hhead
    by (destruct n as [|m]; done).
  assert (calculateExtraChars (List.map Z.of_nat (seq 0 n)) = 0%Z) as Hscore.
  { rewrite (calculateExtraChars_span _ _ _ Hhead Hlast), length_map, length_seq. lia. }
  unfold enumerated. cbn [List.map List.filter]. rewrite Hchain.
  rewrite length_map, length_seq. simpl in Hlen. rewrite <- Hlen, Nat.eqb_refl.
  cbn [selectBest]. rewrite hasLessThanMaximumCharacters_empty. cbn [negb].
  rewrite Hlen. rewrite Hscore. cbn [fst Z.eqb].
  unfold resultOf, firstOf, lastOf. cbn [snd fst]. rewrite Hhead, Hlast. simpl.
  do 3 f_equal. lia.
Qed.

(** ** Which chains the enumerator returns *)

Lemma find_first_increasing (f : Z → bool) occurences p :
  increasing occurences → p ∈ occurences → f p = true →
  ∃ q, List.find f occurences = Some q ∧ (q <= p)%Z.
Proof.
  induction occurences as [|x rest IH]; intros Hinc Hin Hp; [by apply elem_of_nil in Hin|].
  apply StronglySorted_inv in Hinc as [Hinc Hall]. rewrite Forall_forall in Hall.
  simpl. destruct (f x) eqn:Hx.
  - exists x. split; [done|].
    apply elem_of_cons in Hin as [->|Hin]; [lia|]. apply Hall in Hin. lia.
  - apply elem_of_cons in Hin as [->|Hin]; [congruence|]. by apply IH.
Qed.

(** Over ascending lists the greedy chain reaches every level that some
    increasing choice reaches, and stays at or below it position by
    position. *)
Lemma greedyChain_dominates deeper set others final bound :
  Forall increasing deeper →
  last set = Some final → (final <= bound)%Z →
  increasing (bound :: others) →
  Forall2 (fun p occurences => p ∈ occurences) others deeper →
  ∃ extension,
    greedyChain deeper set = set ++ extension ∧ Forall2 Z.le extension others.
Proof.
  revert set others final bound.
  induction deeper as [|cur deeper IH]; intros set others final bound Hsorted Hlast Hle Hinc Hall.
  - apply Forall2_nil_inv_r in Hall as ->. exists []. by rewrite app_nil_r.
  - apply Forall2_cons_inv_r in Hall as (p & others' & Hp & Hall & ->).
    apply Forall_cons in Hsorted as [Hcur Hsorted].
    apply StronglySorted_inv in Hinc as [Hinc Hbound].
    assert (bound < p)%Z as Hlt by (by inversion Hbound).
    destruct (find_first_increasing (lastBefore set) cur p Hcur Hp) as (q & Hq & Hqp).
    { apply lastBefore_spec. exists final. split; [done | lia]. }
    simpl. rewrite Hq.
    destruct (IH (set ++ [q]) others' q p Hsorted) as (ext & H1 & H2);
      [by rewrite last_snoc | done | done | done |].
    exists (q :: ext). rewrite H1, <- app_assoc. split; [done|]. by constructor.
Qed.

Lemma enumerated_dominates occurencesPerChar chain :
  Forall increasing occurencesPerChar → candidate occurencesPerChar chain →
  occurencesPerChar ≠ [] →
  ∃ found, found ∈ enumerated occurencesPerChar
           ∧ head found = head chain
           ∧ Forall2 Z.le found chain.
Proof.
  intros Hsorted [Hall Hinc] Hne.
  destruct occurencesPerChar as [|cur deeper]; [done|].
  apply Forall2_cons_inv_r in Hall as (p & others & Hp & Hall & ->).
  apply Forall_cons in Hsorted as [_ Hsorted].
  destruct (greedyChain_dominates deeper [p] others p p Hsorted) as (ext & H1 & H2);
    [done | lia | done | done |].
  exists (greedyChain deeper [p]).
  split; [|rewrite H1; split; [done | constructor; [lia | done]]].
  simpl. apply list_elem_of_In, filter_In. split.
  - apply in_map_iff. exists p. split; [done | by apply list_elem_of_In].
  - rewrite H1. simpl. apply Nat.eqb_eq. f_equal.
    rewrite (Forall2_length _ _ _ H2). by eapply Forall2_length.
Qed.

(** C3, as the code has it.  For every non-empty family of occurrence
    lists the enumerator returns normally; every chain it returns is a
    complete candidate chain; it returns, for each position of the first
    list in turn, the one chain that takes at every further list the first
    position after the previous one, when that chain reaches full length;
    and when the lists are ascending, every complete candidate chain has a
    returned chain with the same first position that is at or below it
    position by position. *)
Theorem enumerator_greedy (occurencesPerChar : list (list Z)) :
  occurencesPerChar ≠ [] →
  ∃ combinations,
    getPossibleCombinations occurencesPerChar [] = Normal combinations
    ∧ combinations
      = List.filter (fun set => (length set =? length occurencesPerChar)%nat)
          (List.map (fun occurence => greedyChain (tail occurencesPerChar) [occurence])
             (default [] (head occurencesPerChar)))
    ∧ (∀ chain, chain ∈ combinations → candidate occurencesPerChar chain)
    ∧ (Forall increasing occurencesPerChar →
       ∀ chain, candidate occurencesPerChar chain →
         ∃ found, found ∈ combinations
                  ∧ head found = head chain
                  ∧ Forall2 Z.le found chain).
Proof.
  intros Hne. exists (enumerated occurencesPerChar). repeat apply conj.
  - by apply getPossibleCombinations_enumerated.
  - by destruct occurencesPerChar.
  - apply enumerated_candidate.
  - intros Hsorted chain Hc. by apply enumerated_dominates.
Qed.

(** ** The filter over a wider span *)

Lemma occurrencesFrom_app_length front back character position startIndex :
  length (occurrencesFrom front character position startIndex)
  ≤ length (occurrencesFrom (front ++ back) character position startIndex).
Proof.
  revert position. induction front as [|u rest IH]; intros position; simpl; [lia|].
  rewrite !length_app. specialize (IH (position + 1)%Z). lia.
Qed.

Lemma substring_extends target first final final' :
  (first <= final)%Z → (final <= final')%Z →
  ∃ more, substring target first final' = substring target first final ++ more.
Proof.
  intros H1 H2. unfold substring.
  set (len := Z.of_nat (length target)).
  set (a := Z.min (Z.max first 0) len).
  set (b := Z.min (Z.max final 0) len).
  set (b' := Z.min (Z.max final' 0) len).
  assert (a <= b ∧ b <= b')%Z as [Hab Hbb] by lia.
  rewrite !Z.min_l, !Z.max_r by lia.
  exists (take (Z.to_nat (b' - b)) (drop (Z.to_nat (b - a)) (drop (Z.to_nat a) target))).
  rewrite take_take_drop. f_equal. lia.
Qed.

Lemma exceedsLimit_wider target charLimits narrow wide first final final' character :
  head narrow = Some first → last narrow = Some final →
  head wide = Some first → last wide = Some final' →
  (first <= final)%Z → (final <= final')%Z →
  exceedsLimit target narrow charLimits character = true →
  exceedsLimit target wide charLimits character = true.
Proof.
  intros Hn1 Hn2 Hw1 Hw2 H1 H2. unfold exceedsLimit, spanOf.
  rewrite Hn1, Hn2, Hw1, Hw2.
  destruct (toLowerCase [character]) as [|lowered [|? ?]]; [done | | done].
  destruct (charLimits !! lowered) as [limit|]; [|done].
  destruct (substring_extends target first final final' H1 H2) as (more & ->).
  rewrite !findOccurences_spec. simpl.
  pose proof (occurrencesFrom_app_length (substring target first final) more
                lowered 0%Z 0%Z).
  lia.
Qed.

Lemma hasLessThanMaximumCharacters_wider target charLimits narrow wide first final final' :
  head narrow = Some first → last narrow = Some final →
  head wide = Some first → last wide = Some final' →
  (first <= final)%Z → (final <= final')%Z →
  hasLessThanMaximumCharacters target narrow charLimits = false →
  hasLessThanMaximumCharacters target wide charLimits = false.
Proof.
  intros Hn1 Hn2 Hw1 Hw2 H1 H2 Hnarrow.
  destruct (hasLessThanMaximumCharacters target wide charLimits) eqn:Hwide; [|done].
  rewrite <- Hnarrow. symmetry. unfold hasLessThanMaximumCharacters in *.
  rewrite forallb_forall in Hwide. apply forallb_forall. intros entry Hin.
  specialize (Hwide entry Hin).
  destruct (exceedsLimit target narrow charLimits entry.1) eqn:E; [|done].
  by rewrite (exceedsLimit_wider _ _ _ _ _ _ _ _ Hn1 Hn2 Hw1 Hw2 H1 H2 E) in Hwide.
Qed.

Lemma occurrenceLists_increasing targetLowerCased characters lowerBound :
  Forall increasing (occurrenceLists targetLowerCased characters lowerBound).1.
Proof.
  apply Forall_lookup. intros i l Hl.
  destruct (occurrenceLists_lookup _ _ _ _ _ Hl) as (c & _ & _ & ->).
  apply occurrencesFrom_increasing.
Qed.

(** A failing enumerated chain makes every candidate chain that starts
    where it starts fail as well. *)
Lemma candidates_fail_with_enumerated targetLowerCased characters characterLimit chain :
  let occurencesPerChar := (occurrenceLists targetLowerCased characters 0%Z).1 in
  occurencesPerChar ≠ [] →
  (∀ found, found ∈ enumerated occurencesPerChar →
     hasLessThanMaximumCharacters targetLowerCased found characterLimit = false) →
  candidate occurencesPerChar chain →
  hasLessThanMaximumCharacters targetLowerCased chain characterLimit = false.
Proof.
  intros occs Hne Hfail Hc.
  destruct (enumerated_dominates occs chain) as (found & Hin & Hhead & Hle);
    [apply occurrenceLists_increasing | done | done |].
  pose proof (enumerated_candidate _ _ Hin) as [_ Hinc].
  pose proof (candidate_length _ _ Hc) as Hlen.
  destruct chain as [|first others]; [destruct occs; simpl in *; [done | lia]|].
  destruct found as [|first' others']; [by apply Forall2_nil_inv_l in Hle|].
  simpl in Hhead. injection Hhead as ->.
  destruct (last (first :: others')) as [final|] eqn:E1; [|by apply last_None in E1].
  destruct (last (first :: others)) as [final'|] eqn:E2; [|by apply last_None in E2].
  pose proof (Forall2_last _ _ _ Hle) as Hlast. rewrite E1, E2 in Hlast.
  inversion Hlast; subst.
  eapply (hasLessThanMaximumCharacters_wider _ _ (first :: others') (first :: others));
    [done | done | done | done | | done | by apply Hfail].
  by eapply increasing_head_le_last.
Qed.

(** ** When there is no match *)

(** The cases in which a call that completes returns [null]. *)
Lemma matchFuzzy_null_cases (query target : list codeUnit)
    (characterLimit : gmap codeUnit Z) :
  (query ≠ [] → toLowerCase query ≠ []) →
  let occurencesPerChar :=
    (occurrenceLists (toLowerCase target) (toLowerCase query) 0%Z).1 in
  matchFuzzy query target characterLimit = Normal None
  ↔ query = [] ∨ target = [] ∨ length target < length query
    ∨ noOccurrence (toLowerCase target) (toLowerCase query) occurencesPerChar
    ∨ ∀ chain, candidate occurencesPerChar chain →
        hasLessThanMaximumCharacters (toLowerCase target) chain characterLimit = false.
Proof.
  intros Hlow. simpl.
  set (lists := occurrenceLists (toLowerCase target) (toLowerCase query) 0%Z).
  pose proof (occurrenceLists_length (toLowerCase target) (toLowerCase query) 0%Z)
    as (_ & Hfull & Hshort). fold lists in Hfull, Hshort. simpl in Hfull, Hshort.
  destruct (decide (query = [])) as [Hq|Hq].
  { split; [intros _; by left | intros _; apply matchFuzzy_degenerate; by left]. }
  destruct (decide (target = [])) as [Ht|Ht].
  { split; [intros _; right; by left
           | intros _; apply matchFuzzy_degenerate; right; by left]. }
  destruct (decide (length target < length query)) as [Hlt|Hge].
  { split; [intros _; right; right; by left
           | intros _; apply matchFuzzy_degenerate; right; by right]. }
  rewrite matchFuzzy_nondegenerate by (done || lia || auto). fold lists. simpl.
  destruct lists.2 eqn:Hdone.
  - assert (lists.1 ≠ []) as Hne by (apply occurrenceLists_nonempty; auto).
    destruct (selectBest _ _ _ _) as [best|] eqn:Hsel.
    + split; [done|]. intros [?|[?|[?|[Hno|Hall]]]]; [done | done | lia | |].
      * destruct Hno as (c & Hc & _). apply lookup_lt_Some in Hc.
        specialize (Hfull eq_refl). lia.
      * exfalso. destruct best as [e set].
        apply selectBest_first_minimum in Hsel as (earlier & later & H1 & _).
        assert (set ∈ survivors (toLowerCase target) characterLimit (enumerated lists.1))
          as Hin by (rewrite H1; apply elem_of_app; right; by apply elem_of_cons; left).
        apply list_elem_of_In, filter_In in Hin as [Hin Hok].
        apply list_elem_of_In, enumerated_candidate, Hall in Hin. congruence.
    + split; [|done]. intros _. do 4 right. intros chain Hc.
      apply selectBest_none in Hsel.
      apply (candidates_fail_with_enumerated _ (toLowerCase query)); [done | | done].
      intros found Hfound. fold lists in Hfound.
      destruct (hasLessThanMaximumCharacters (toLowerCase target) found characterLimit)
        eqn:Hok; [|done].
      assert (found ∈ survivors (toLowerCase target) characterLimit (enumerated lists.1))
        as Hin by (apply list_elem_of_In, filter_In; split; [by apply list_elem_of_In | done]).
      rewrite Hsel in Hin. by apply elem_of_nil in Hin.
  - split; [|done]. intros _. do 3 right. left.
    by apply occurrenceLists_noOccurrence.
Qed.

(** ** The limit mapping and the case of its keys *)

(** The number of occurrences of [character] in the span of [chain]. *)
Definition countInSpan (target : list codeUnit) (chain : list Z) (character : codeUnit) : Z :=
  Z.of_nat (length (findOccurences (spanOf target chain) character 0%Z [])).

Lemma forallb_false {A : Type} (f : A → bool) (l : list A) :
  forallb f l = false → ∃ x, In x l ∧ f x = false.
Proof.
  induction l as [|x l IH]; simpl; [done|].
  destruct (f x) eqn:E; simpl.
  - intros H. destruct (IH H) as (y & Hy & Hf). eauto.
  - intros _. eauto.
Qed.

(** The filter discards a chain exactly when some key of the mapping has a
    one-unit lowercase form that is itself a key and whose limit the count
    exceeds: the limit is read under the lowercased key, so a key that is not
    its own lowercase form never has a limit of its own. *)
Lemma hasLessThanMaximumCharacters_false target chain (charLimits : gmap codeUnit Z) :
  hasLessThanMaximumCharacters target chain charLimits = false
  ↔ ∃ character lowered limit,
      is_Some (charLimits !! character)
      ∧ toLowerCase [character] = [lowered]
      ∧ charLimits !! lowered = Some limit
      ∧ (limit < countInSpan target chain lowered)%Z.
Proof.
  unfold hasLessThanMaximumCharacters, countInSpan. split.
  - intros H. apply forallb_false in H as ([k v] & Hin & Hk).
    apply list_elem_of_In, elem_of_map_to_list in Hin. simpl in Hk.
    apply negb_false_iff in Hk. unfold exceedsLimit in Hk.
    destruct (toLowerCase [k]) as [|lowered [|? ?]] eqn:Ek; [done | | done].
    destruct (charLimits !! lowered) as [limit|] eqn:El; [|done].
    exists k, lowered, limit. split; [by eexists|]. split; [done|].
    split; [done | lia].
  - intros (k & lowered & limit & [v Hk] & Hlow & Hl & Hlt).
    destruct (forallb _ _) eqn:E; [|done]. rewrite forallb_forall in E.
    specialize (E (k, v)). simpl in E. unfold exceedsLimit in E.
    rewrite Hlow, Hl in E.
    assert (In (k, v) (map_to_list charLimits)) as Hin
      by (by apply list_elem_of_In, elem_of_map_to_list).
    specialize (E Hin). apply negb_true_iff in E. lia.
Qed.

(** * Further properties of the code *)

(** ** Embeddings of the query in the target *)

(** A strictly increasing sequence of positions of [targetLowerCased] that
    spells [queryLowerCased]. *)
Definition embedding (targetLowerCased queryLowerCased : list codeUnit)
    (chain : list Z) : Prop :=
  increasing chain
  ∧ Forall2 (fun p character => unitAt targetLowerCased p = Some character)
      chain queryLowerCased.

Lemma occurrenceLists_embedding targetLowerCased characters lowerBound chain :
  increasing chain →
  Forall2 (fun p character => unitAt targetLowerCased p = Some character)
    chain characters →
  Forall (fun p => (lowerBound <= p)%Z) chain →
  (occurrenceLists targetLowerCased characters lowerBound).2 = true
  ∧ Forall2 (fun p occurences => p ∈ occurences) chain
      (occurrenceLists targetLowerCased characters lowerBound).1.
Proof.
  revert lowerBound chain.
  induction characters as [|c rest IH]; intros lowerBound chain Hinc Hall Hlow.
  - apply Forall2_nil_inv_r in Hall as ->. by split.
  - apply Forall2_cons_inv_r in Hall as (p & chain' & Hp & Hall & ->).
    apply StronglySorted_inv in Hinc as [Hinc Hafter].
    apply Forall_cons in Hlow as [Hlow _].
    assert (p ∈ occurrencesFrom targetLowerCased c 0%Z lowerBound) as Hin
      by (by apply occurrencesFrom_elem_0).
    pose proof (occurrencesFrom_increasing targetLowerCased c 0%Z lowerBound) as Hsorted.
    simpl.
    destruct (occurrencesFrom targetLowerCased c 0%Z lowerBound) as [|f others];
      [by apply elem_of_nil in Hin|].
    assert (f <= p)%Z as Hfp.
    { apply StronglySorted_inv in Hsorted as [_ Hf]. rewrite Forall_forall in Hf.
      apply elem_of_cons in Hin as [->|Hin]; [lia|]. apply Hf in Hin. lia. }
    destruct (IH (f + 1)%Z chain' Hinc Hall) as [H1 H2].
    { eapply Forall_impl; [exact Hafter|]. simpl. intros x Hx. lia. }
    simpl. split; [done|]. by constructor.
Qed.

Lemma occurrenceLists_candidate_spells targetLowerCased characters lowerBound chain :
  (occurrenceLists targetLowerCased characters lowerBound).2 = true →
  Forall2 (fun p occurences => p ∈ occurences) chain
    (occurrenceLists targetLowerCased characters lowerBound).1 →
  Forall2 (fun p character => unitAt targetLowerCased p = Some character)
    chain characters.
Proof.
  revert lowerBound chain.
  induction characters as [|c rest IH]; intros lowerBound chain; simpl.
  - intros _ Hall. apply Forall2_nil_inv_r in Hall as ->. constructor.
  - destruct (occurrencesFrom targetLowerCased c 0%Z lowerBound) as [|f others] eqn:E;
      simpl; [done|].
    intros Hdone Hall.
    apply Forall2_cons_inv_r in Hall as (p & chain' & Hp & Hall & ->).
    constructor; [|by eapply IH].
    rewrite <- E in Hp. by apply occurrencesFrom_elem_0 in Hp as [_ ?].
Qed.

(** The lower bounds of the indexing loop lose nothing: once the loop has
    run to its end, the complete candidate chains are exactly the
    embeddings. *)
Lemma candidate_iff_embedding targetLowerCased queryLowerCased chain :
  (occurrenceLists targetLowerCased queryLowerCased 0%Z).2 = true →
  candidate (occurrenceLists targetLowerCased queryLowerCased 0%Z).1 chain
  ↔ embedding targetLowerCased queryLowerCased chain.
Proof.
  intros Hdone. unfold candidate, embedding. split.
  - intros [Hall Hinc]. split; [done|]. by eapply occurrenceLists_candidate_spells.
  - intros [Hinc Hall]. split; [|done].
    apply occurrenceLists_embedding; [done | done |].
    apply Forall_forall. intros p Hp.
    apply list_elem_of_lookup in Hp as [i Hi].
    destruct (Forall2_lookup_l _ _ _ _ _ Hall Hi) as (c & _ & Hc).
    apply unitAt_bounds in Hc. lia.
Qed.

Lemma embedding_indexed targetLowerCased queryLowerCased chain :
  embedding targetLowerCased queryLowerCased chain →
  (occurrenceLists targetLowerCased queryLowerCased 0%Z).2 = true.
Proof.
  intros [Hinc Hall]. apply (occurrenceLists_embedding _ _ _ chain); [done | done |].
  apply Forall_forall. intros p Hp.
  apply list_elem_of_lookup in Hp as [i Hi].
  destruct (Forall2_lookup_l _ _ _ _ _ Hall Hi) as (c & _ & Hc).
  apply unitAt_bounds in Hc. lia.
Qed.

Lemma increasing_length_bound chain lo hi :
  increasing chain → Forall (fun p => (lo <= p < hi)%Z) chain →
  (Z.of_nat (length chain) <= Z.max 0 (hi - lo))%Z.
Proof.
  revert lo. induction chain as [|p rest IH]; intros lo Hinc Hall; simpl length; [lia|].
  apply StronglySorted_inv in Hinc as [Hinc Hafter].
  apply Forall_cons in Hall as [Hp Hall].
  assert (Forall (fun q => (p + 1 <= q < hi)%Z) rest) as Hrest.
  { rewrite Forall_forall in Hafter, Hall. apply Forall_forall. intros q Hq.
    specialize (Hafter q Hq). specialize (Hall q Hq). simpl in *. lia. }
  specialize (IH (p + 1)%Z Hinc Hrest). lia.
Qed.

Lemma embedding_length targetLowerCased queryLowerCased chain :
  embedding targetLowerCased queryLowerCased chain →
  length chain = length queryLowerCased
  ∧ length queryLowerCased ≤ length targetLowerCased.
Proof.
  intros [Hinc Hall]. pose proof (Forall2_length _ _ _ Hall) as Hlen.
  split; [done|]. rewrite <- Hlen.
  assert (Forall (fun p => (0 <= p < Z.of_nat (length targetLowerCased))%Z) chain) as Hb.
  { apply Forall_forall. intros p Hp.
    apply list_elem_of_lookup in Hp as [i Hi].
    destruct (Forall2_lookup_l _ _ _ _ _ Hall Hi) as (c & _ & Hc).
    by apply unitAt_bounds in Hc. }
  pose proof (increasing_length_bound _ _ _ Hinc Hb). lia.
Qed.

(** ** The enumerated chains stand for all chains *)

Lemma dominated_score found chain :
  head found = head chain → Forall2 Z.le found chain →
  (calculateExtraChars found <= calculateExtraChars chain)%Z.
Proof.
  intros Hhead Hle. pose proof (Forall2_length _ _ _ Hle) as Hlen.
  destruct found as [|first others']; [by apply Forall2_nil_inv_l in Hle as ->|].
  destruct chain as [|first' others]; [done|]. simpl in Hhead. injection Hhead as <-.
  destruct (last (first :: others')) as [final|] eqn:E1; [|by apply last_None in E1].
  destruct (last (first :: others)) as [final'|] eqn:E2; [|by apply last_None in E2].
  pose proof (Forall2_last _ _ _ Hle) as Hlast. rewrite E1, E2 in Hlast.
  inversion Hlast; subst.
  rewrite (calculateExtraChars_span (first :: others') first final) by done.
  rewrite (calculateExtraChars_span (first :: others) first final') by done.
  rewrite Hlen. lia.
Qed.

(** Every chain that passes the filter has an enumerated chain that passes
    it too, starts where it starts, lies at or below it and scores no
    worse. *)
Lemma survivor_below targetLowerCased characters characterLimit chain :
  let occurencesPerChar := (occurrenceLists targetLowerCased characters 0%Z).1 in
  occurencesPerChar ≠ [] →
  candidate occurencesPerChar chain →
  hasLessThanMaximumCharacters targetLowerCased chain characterLimit = true →
  ∃ found,
    found ∈ survivors targetLowerCased characterLimit (enumerated occurencesPerChar)
    ∧ head found = head chain
    ∧ Forall2 Z.le found chain
    ∧ (calculateExtraChars found <= calculateExtraChars chain)%Z.
Proof.
  intros occs Hne Hc Hok.
  destruct (enumerated_dominates occs chain) as (found & Hin & Hhead & Hle);
    [apply occurrenceLists_increasing | done | done |].
  exists found. split; [|split; [done | split; [done | by apply dominated_score]]].
  apply list_elem_of_In, filter_In. split; [by apply list_elem_of_In|].
  destruct (hasLessThanMaximumCharacters targetLowerCased found characterLimit) eqn:E;
    [done|].
  pose proof (enumerated_candidate _ _ Hin) as [_ Hinc].
  destruct found as [|first others']; [destruct chain; [|by apply Forall2_nil_inv_l in Hle];
                                       apply candidate_length in Hc;
                                       destruct occs; simpl in *; [done | lia]|].
  destruct chain as [|first' others]; [done|]. simpl in Hhead. injection Hhead as <-.
  destruct (last (first :: others')) as [final|] eqn:E1; [|by apply last_None in E1].
  destruct (last (first :: others)) as [final'|] eqn:E2; [|by apply last_None in E2].
  pose proof (Forall2_last _ _ _ Hle) as Hlast. rewrite E1, E2 in Hlast.
  inversion Hlast; subst.
  rewrite <- Hok. symmetry.
  eapply (hasLessThanMaximumCharacters_wider _ _ (first :: others') (first :: others));
    [done | done | done | done | | done | done].
  by eapply increasing_head_le_last.
Qed.

(** The score of the best combination is the least score of a chain that
    passes the filter. *)
Lemma best_score_least query target characterLimit result chain :
  matchFuzzy query target characterLimit = Normal (Some result) →
  embedding (toLowerCase target) (toLowerCase query) chain →
  hasLessThanMaximumCharacters (toLowerCase target) chain characterLimit = true →
  ∃ found,
    found ∈ survivors (toLowerCase target) characterLimit
              (enumerated (occurrenceLists (toLowerCase target) (toLowerCase query) 0%Z).1)
    ∧ head found = head chain
    ∧ Forall2 Z.le found chain
    ∧ (extraChars result <= calculateExtraChars found)%Z
    ∧ (calculateExtraChars found <= calculateExtraChars chain)%Z.
Proof.
  intros H Hemb Hok.
  pose proof (matchFuzzy_some _ _ _ _ H) as (Hq & _ & _ & Hdone & Hlen & Hsel & _).
  simpl in *.
  pose proof (matchFuzzy_some_lists _ _ _ _ H) as [_ Hne].
  apply candidate_iff_embedding in Hemb; [|done].
  destruct (survivor_below _ _ _ _ Hne Hemb Hok) as (found & Hin & Hhead & Hle & Hscore).
  exists found. repeat split; try done.
  destruct (selectBest_first_minimum _ _ _ _ _ Hsel) as (earlier & later & H1 & H2 & H3 & H4).
  pose proof Hin as Hin'. rewrite H1 in Hin'.
  apply elem_of_app in Hin' as [Hin'|Hin'].
  - specialize (H3 _ Hin'). lia.
  - apply elem_of_cons in Hin' as [->|Hin']; [lia|].
    destruct H4 as [H4|H4]; [|by apply H4].
    apply list_elem_of_In, filter_In in Hin as [Hin _].
    apply list_elem_of_In, enumerated_candidate in Hin as [_ Hinc].
    destruct (calculateExtraChars_increasing _ Hinc) as [Hge _]. lia.
Qed.

Lemma embedding_gives_match query target characterLimit chain :
  query ≠ [] → length query ≤ length target → toLowerCase query ≠ [] →
  embedding (toLowerCase target) (toLowerCase query) chain →
  hasLessThanMaximumCharacters (toLowerCase target) chain characterLimit = true →
  ∃ result, matchFuzzy query target characterLimit = Normal (Some result).
Proof.
  intros Hq Hlen Hlow Hemb Hok.
  assert (target ≠ []) as Ht
    by (intros ->; destruct query; simpl in *; [done | lia]).
  rewrite matchFuzzy_nondegenerate by done. simpl.
  pose proof (embedding_indexed _ _ _ Hemb) as Hdone. rewrite Hdone.
  pose proof (occurrenceLists_nonempty _ _ Hlow Hdone) as Hne.
  apply candidate_iff_embedding in Hemb; [|done].
  destruct (survivor_below _ _ _ _ Hne Hemb Hok) as (found & Hin & _).
  destruct (selectBest _ _ _ _) as [best|] eqn:Hsel; [eauto|].
  apply selectBest_none in Hsel. rewrite Hsel in Hin. by apply elem_of_nil in Hin.
Qed.

(** A call that completes returns a result exactly when the guard lets the
    strings through and some embedding passes the filter. *)
Lemma matchFuzzy_result_cases (query target : list codeUnit)
    (characterLimit : gmap codeUnit Z) :
  (∃ result, matchFuzzy query target characterLimit = Normal (Some result))
  ↔ query ≠ [] ∧ length query ≤ length target
    ∧ ∃ chain,
        chain ≠ []
        ∧ embedding (toLowerCase target) (toLowerCase query) chain
        ∧ hasLessThanMaximumCharacters (toLowerCase target) chain characterLimit = true.
Proof.
  split.
  - intros [result H].
    pose proof (matchFuzzy_some _ _ _ _ H) as (Hq & _ & Hlen & Hdone & Hfull & _).
    pose proof (matchFuzzy_some_chain _ _ _ _ H) as (Hc & _ & Hok & _).
    pose proof (matchFuzzy_some_lists _ _ _ _ H) as [Hlow _]. simpl in *.
    split; [done|]. split; [done|]. exists (positions result).
    split; [|split; [by apply candidate_iff_embedding | done]].
    intros E. apply candidate_length in Hc. rewrite E, Hfull in Hc.
    by destruct (toLowerCase query).
  - intros (Hq & Hlen & chain & Hne & Hemb & Hok).
    eapply embedding_gives_match; [done | done | | done | done].
    intros E. destruct Hemb as [_ Hall]. rewrite E in Hall.
    by apply Forall2_nil_inv_r in Hall.
Qed.

(** X2. The [extraChars] of a result is the least score there is: the
    returned positions are themselves an embedding of the lowercased query in
    the lowercased target that passes the filter, with that score, and no
    embedding that passes the filter scores less. *)
Theorem result_optimal (query target : list codeUnit) (characterLimit : gmap codeUnit Z)
    (result : MatchResult) :
  matchFuzzy query target characterLimit = Normal (Some result) →
  embedding (toLowerCase target) (toLowerCase query) (positions result)
  ∧ hasLessThanMaximumCharacters (toLowerCase target) (positions result) characterLimit
    = true
  ∧ extraChars result = calculateExtraChars (positions result)
  ∧ ∀ chain,
      embedding (toLowerCase target) (toLowerCase query) chain →
      hasLessThanMaximumCharacters (toLowerCase target) chain characterLimit = true →
      (extraChars result <= calculateExtraChars chain)%Z.
Proof.
  intros H.
  pose proof (matchFuzzy_some _ _ _ _ H) as (_ & _ & _ & Hdone & _).
  pose proof (matchFuzzy_some_chain _ _ _ _ H) as (Hc & _ & Hok & Hscore). simpl in *.
  split; [by apply candidate_iff_embedding|]. split; [done|]. split; [done|].
  intros chain Hemb Hchain.
  destruct (best_score_least _ _ _ _ _ H Hemb Hchain) as (found & _ & _ & _ & H1 & H2).
  lia.
Qed.

(** ** The order of the enumerated chains *)

Definition startsBefore (a b : list Z) : Prop :=
  ∃ x y, head a = Some x ∧ head b = Some y ∧ (x < y)%Z.

Lemma greedyChain_head deeper p : head (greedyChain deeper [p]) = Some p.
Proof.
  destruct (greedyChain_extends deeper [p]) as (ext & -> & _); [repeat constructor | done].
Qed.

Lemma filter_StronglySorted {A : Type} (R : A → A → Prop) (f : A → bool) (l : list A) :
  StronglySorted R l → StronglySorted R (List.filter f l).
Proof.
  induction 1 as [|x l Hs IH Hall]; simpl; [constructor|].
  destruct (f x); [|done]. constructor; [done|].
  rewrite Forall_forall in Hall. apply Forall_forall. intros y Hy.
  apply list_elem_of_In, filter_In in Hy as [Hy _]. by apply Hall, list_elem_of_In.
Qed.

Lemma enumerated_starts_sorted occurencesPerChar :
  Forall increasing occurencesPerChar →
  StronglySorted startsBefore (enumerated occurencesPerChar).
Proof.
  destruct occurencesPerChar as [|cur deeper]; simpl; [constructor|].
  intros Hsorted. apply Forall_cons in Hsorted as [Hcur _].
  apply filter_StronglySorted.
  induction Hcur as [|p rest Hs IH Hall]; simpl; [constructor|].
  constructor; [done|]. rewrite Forall_forall in Hall. apply Forall_forall.
  intros chain Hin. apply list_elem_of_In, in_map_iff in Hin as (q & <- & Hq).
  exists p, q. rewrite !greedyChain_head. repeat split. by apply Hall, list_elem_of_In.
Qed.

Lemma matchFuzzy_some_head query target characterLimit result :
  matchFuzzy query target characterLimit = Normal (Some result) →
  head (positions result) = Some (offset result).
Proof.
  intros H.
  pose proof (matchFuzzy_some _ _ _ _ H) as (Hq & _ & _ & _ & Hlen & _ & Hres).
  pose proof (matchFuzzy_some_chain _ _ _ _ H) as (Hc & _).
  pose proof (matchFuzzy_some_lists _ _ _ _ H) as [Hlow _]. simpl in *.
  rewrite Hres. unfold resultOf, firstOf. simpl.
  destruct (positions result) as [|p rest] eqn:E; [|done].
  apply candidate_length in Hc. rewrite Hlen in Hc.
  destruct (toLowerCase query); simpl in *; [done | lia].
Qed.

Lemma best_start_least query target characterLimit result chain :
  matchFuzzy query target characterLimit = Normal (Some result) →
  embedding (toLowerCase target) (toLowerCase query) chain →
  hasLessThanMaximumCharacters (toLowerCase target) chain characterLimit = true →
  calculateExtraChars chain = extraChars result →
  ∃ first, head chain = Some first ∧ (offset result <= first)%Z.
Proof.
  intros H Hemb Hok Hscore.
  pose proof (matchFuzzy_some _ _ _ _ H) as (_ & _ & _ & _ & _ & Hsel & _).
  pose proof (matchFuzzy_some_head _ _ _ _ H) as Hhead. simpl in *.
  set (occs := (occurrenceLists (toLowerCase target) (toLowerCase query) 0%Z).1) in *.
  destruct (best_score_least _ _ _ _ _ H Hemb Hok) as (found & Hin & Hfh & _ & H1 & H2).
  fold occs in Hin.
  destruct (selectBest_first_minimum _ _ _ _ _ Hsel)
    as (earlier & later & E1 & E2 & E3 & _).
  pose proof (enumerated_starts_sorted occs (occurrenceLists_increasing _ _ _)) as Hord.
  apply (filter_StronglySorted _
           (fun set => hasLessThanMaximumCharacters (toLowerCase target) set characterLimit))
    in Hord.
  fold (survivors (toLowerCase target) characterLimit (enumerated occs)) in Hord.
  rewrite E1 in Hord, Hin. apply StronglySorted_app_1_r in Hord.
  apply StronglySorted_inv in Hord as [_ Hafter]. rewrite Forall_forall in Hafter.
  apply elem_of_app in Hin as [Hin|Hin]; [specialize (E3 _ Hin); lia|].
  apply elem_of_cons in Hin as [->|Hin].
  - exists (offset result). rewrite <- Hfh. split; [done | lia].
  - destruct (Hafter _ Hin) as (x & y & Hx & Hy & Hxy).
    rewrite Hhead in Hx. injection Hx as <-.
    exists y. rewrite <- Hfh. split; [done | lia].
Qed.

(** X3. Of the embeddings that pass the filter with the least score, the
    result is the one that starts first; and of the embeddings that start at
    its [offset], its positions are the least, position by position. *)
Theorem result_leftmost (query target : list codeUnit) (characterLimit : gmap codeUnit Z)
    (result : MatchResult) :
  matchFuzzy query target characterLimit = Normal (Some result) →
  (∀ chain,
     embedding (toLowerCase target) (toLowerCase query) chain →
     hasLessThanMaximumCharacters (toLowerCase target) chain characterLimit = true →
     calculateExtraChars chain = extraChars result →
     ∃ first, head chain = Some first ∧ (offset result <= first)%Z)
  ∧ (∀ chain,
       embedding (toLowerCase target) (toLowerCase query) chain →
       head chain = Some (offset result) →
       Forall2 Z.le (positions result) chain).
Proof.
  intros H.
  pose proof (matchFuzzy_some _ _ _ _ H) as (Hq & _ & _ & Hdone & Hlen & Hsel & Hres).
  pose proof (matchFuzzy_some_chain _ _ _ _ H) as (Hc & Henum & _). simpl in *.
  set (occs := (occurrenceLists (toLowerCase target) (toLowerCase query) 0%Z).1) in *.
  assert (Forall increasing occs) as Hsorted by apply occurrenceLists_increasing.
  pose proof (matchFuzzy_some_head _ _ _ _ H) as Hhead.
  split.
  - intros chain Hemb Hok Hscore. by eapply best_start_least.
  - intros chain Hemb Hstart.
    apply candidate_iff_embedding in Hemb; [|done]. fold occs in Hemb.
    destruct Hemb as [Hall Hinc].
    destruct occs as [|cur deeper] eqn:Eoccs; [by apply elem_of_nil in Henum|].
    simpl in Henum. apply list_elem_of_In, filter_In in Henum as [Henum _].
    apply in_map_iff in Henum as (p & Hp & _).
    rewrite <- Hp, greedyChain_head in Hhead. injection Hhead as Hoff.
    apply Forall2_cons_inv_r in Hall as (p' & others & _ & Hall & ->).
    simpl in Hstart. injection Hstart as ->. rewrite <- Hoff in *.
    apply Forall_cons in Hsorted as [_ Hsorted].
    destruct (greedyChain_dominates deeper [p] others p p Hsorted) as (ext & H1 & H2);
      [done | lia | done | done |].
    rewrite <- Hp, H1. simpl. constructor; [lia | done].
Qed.

(** ** Accounting for the target *)

(** X4. The fields of a result account for the whole target as the code
    measures it: [offset], the length of the lowercased query, [extraChars]
    and [trailingChars] add up to the length of the target; [offset] and
    [extraChars] are not negative, and [trailingChars] is at least the target
    length minus the length of the lowercased target. *)
Theorem result_accounting (query target : list codeUnit) (characterLimit : gmap codeUnit Z)
    (result : MatchResult) :
  matchFuzzy query target characterLimit = Normal (Some result) →
  (offset result + Z.of_nat (length (toLowerCase query)) + extraChars result
   + trailingChars result
   = Z.of_nat (length target))%Z
  ∧ (0 <= offset result)%Z ∧ (0 <= extraChars result)%Z
  ∧ (Z.of_nat (length target) - Z.of_nat (length (toLowerCase target))
     <= trailingChars result)%Z.
Proof.
  intros H.
  pose proof (matchFuzzy_some _ _ _ _ H) as (_ & _ & _ & _ & Hlen & _ & Hres).
  pose proof (matchFuzzy_some_chain _ _ _ _ H) as (Hc & _ & _ & Hscore).
  pose proof (matchFuzzy_some_head _ _ _ _ H) as Hhead. simpl in *.
  pose proof (candidate_length _ _ Hc) as Hlen'. rewrite Hlen in Hlen'.
  destruct (last (positions result)) as [final|] eqn:Hlast;
    [|apply last_None in Hlast; by rewrite Hlast in Hhead].
  assert (trailingChars result = (Z.of_nat (length target) - (final + 1))%Z) as Htrail.
  { rewrite Hres. unfold resultOf, lastOf. cbn [trailingChars snd]. by rewrite Hlast. }
  rewrite (calculateExtraChars_span _ _ _ Hhead Hlast), Hlen' in Hscore.
  assert (0 <= offset result)%Z as Hoff.
  { rewrite head_lookup in Hhead.
    destruct (candidate_lookup _ _ _ _ _ _ Hc Hhead) as (c & _ & Hu).
    apply unitAt_bounds in Hu. lia. }
  assert (final < Z.of_nat (length (toLowerCase target)))%Z as Hfinal.
  { rewrite last_lookup in Hlast.
    destruct (candidate_lookup _ _ _ _ _ _ Hc Hlast) as (c & _ & Hu).
    apply unitAt_bounds in Hu. lia. }
  destruct Hc as [_ Hinc].
  destruct (calculateExtraChars_increasing _ Hinc) as [Hge _].
  rewrite (calculateExtraChars_span _ _ _ Hhead Hlast), Hlen' in Hge.
  repeat split; lia.
Qed.

(** ** The filter *)

Lemma occurrencesFrom_length_filter target character position startIndex :
  (startIndex <= position)%Z →
  length (occurrencesFrom target character position startIndex)
  = length (List.filter (fun unit => N.eqb unit character) target).
Proof.
  revert position. induction target as [|u rest IH]; intros position Hle; simpl; [done|].
  rewrite length_app, (IH (position + 1)%Z) by lia.
  replace (startIndex <=? position)%Z with true by lia. simpl.
  by destruct (N.eqb u character).
Qed.

Lemma countInSpan_filter target chain first final character :
  head chain = Some first → last chain = Some final →
  countInSpan target chain character
  = Z.of_nat (length (List.filter (fun unit => N.eqb unit character)
                        (substring target first final))).
Proof.
  intros Hh Hl. unfold countInSpan, spanOf. rewrite Hh, Hl, findOccurences_spec. simpl.
  by rewrite occurrencesFrom_length_filter.
Qed.

(** X6. When every key of the limit mapping is its own lowercase form, the
    filter keeps a chain exactly when, for every key, the number of units of
    the substring from the chain's first position to its last position, the
    last excluded, that equal the key is at most the key's limit. *)
Theorem filter_lowercase_keys (target : list codeUnit) (chain : list Z)
    (charLimits : gmap codeUnit Z) (first final : Z) :
  (∀ character,
     is_Some (charLimits !! character) → toLowerCase [character] = [character]) →
  head chain = Some first → last chain = Some final →
  hasLessThanMaximumCharacters target chain charLimits = true
  ↔ ∀ character limit,
      charLimits !! character = Some limit →
      (Z.of_nat (length (List.filter (fun unit => N.eqb unit character)
                           (substring target first final))) <= limit)%Z.
Proof.
  intros Hkeys Hh Hl. split.
  - intros Hok k limit Hk.
    destruct (Z.le_gt_cases
                (Z.of_nat (length (List.filter (fun unit => N.eqb unit k)
                                     (substring target first final)))) limit)
      as [Hle|Hgt]; [done|].
    assert (hasLessThanMaximumCharacters target chain charLimits = false) as Hno.
    { apply hasLessThanMaximumCharacters_false. exists k, k, limit.
      split; [by eexists|]. split; [apply Hkeys; by eexists|]. split; [done|].
      rewrite (countInSpan_filter _ _ _ _ _ Hh Hl). lia. }
    congruence.
  - intros Hall.
    destruct (hasLessThanMaximumCharacters target chain charLimits) eqn:E; [done|].
    apply hasLessThanMaximumCharacters_false in E
      as (k & lowered & limit & Hk & Hlow & Hlim & Hlt).
    rewrite (Hkeys k Hk) in Hlow. injection Hlow as <-.
    rewrite (countInSpan_filter _ _ _ _ _ Hh Hl) in Hlt.
    specialize (Hall k limit Hlim). lia.
Qed.

(** X7. Tightening the limit mapping never helps: when every key of one
    mapping is a key of a second mapping with a limit that is not larger,
    a match under the second mapping comes with a match under the first
    whose [extraChars] is not larger. *)
Theorem tighter_limits_never_help (query target : list codeUnit)
    (loose tight : gmap codeUnit Z) (result' : MatchResult) :
  (∀ character limit,
     loose !! character = Some limit →
     ∃ limit', tight !! character = Some limit' ∧ (limit' <= limit)%Z) →
  matchFuzzy query target tight = Normal (Some result') →
  ∃ result,
    matchFuzzy query target loose = Normal (Some result)
    ∧ (extraChars result <= extraChars result')%Z.
Proof.
  intros Hstrict H'.
  pose proof (matchFuzzy_some _ _ _ _ H') as (Hq & _ & Hlen & Hdone & _).
  pose proof (matchFuzzy_some_chain _ _ _ _ H') as (Hc & _ & Hok & Hscore).
  pose proof (matchFuzzy_some_lists _ _ _ _ H') as [Hlow _]. simpl in *.
  apply candidate_iff_embedding in Hc; [|done].
  assert (hasLessThanMaximumCharacters (toLowerCase target) (positions result') loose
          = true) as Hloose.
  { destruct (hasLessThanMaximumCharacters (toLowerCase target) (positions result') loose)
      eqn:E; [done|].
    apply hasLessThanMaximumCharacters_false in E
      as (k & lowered & limit & [v Hk] & Hkey & Hlim & Hlt).
    destruct (Hstrict _ _ Hk) as (v' & Hk' & _).
    destruct (Hstrict _ _ Hlim) as (limit' & Hlim' & Hle).
    assert (hasLessThanMaximumCharacters (toLowerCase target) (positions result') tight
            = false) as Hno.
    { apply hasLessThanMaximumCharacters_false. exists k, lowered, limit'.
      split; [by eexists|]. split; [done|]. split; [done | lia]. }
    congruence. }
  destruct (embedding_gives_match _ _ _ _ Hq Hlen Hlow Hc Hloose) as [result H].
  exists result. split; [done|].
  destruct (best_score_least _ _ _ _ _ H Hc Hloose) as (found & _ & _ & _ & H1 & H2).
  lia.
Qed.

(** ** The size of the enumeration *)

(** X8. The enumerator returns at most one chain for each position of the
    first occurrence list, in the order of that list: the first positions of
    the returned chains form a sublist of it, so there are never more chains
    than occurrences of the first query character. *)
Theorem enumerator_one_chain_per_start (currentOccurence : list Z)
    (deeper : list (list Z)) :
  ∃ combinations,
    getPossibleCombinations (currentOccurence :: deeper) [] = Normal combinations
    ∧ length combinations ≤ length currentOccurence
    ∧ List.map firstOf combinations `sublist_of` currentOccurence.
Proof.
  rewrite getPossibleCombinations_spec. eexists. split; [done|].
  assert (List.map firstOf
            (List.filter (fun set => (length set =? S (length deeper))%nat)
               (List.map (fun occurence => greedyChain deeper [occurence])
                  currentOccurence))
          `sublist_of` currentOccurence) as Hsub.
  { induction currentOccurence as [|p rest IH]; simpl; [constructor|].
    destruct (length (greedyChain deeper [p]) =? S (length deeper))%nat.
    - simpl. unfold firstOf at 1. rewrite greedyChain_head. simpl.
      by apply sublist_skip.
    - by apply sublist_cons. }
  split; [|done].
  apply sublist_length in Hsub. by rewrite length_map in Hsub.
Qed.

(** ** [findOccurences] and [calculateExtraChars] on any input *)

(** X9. For every start index and every array passed as [result],
    [findOccurences] returns that array followed by the positions at or
    after the start index that hold the character, each once and in
    ascending order; a start index at or past the end of the target adds
    nothing, and a start index of [0] or less searches the whole target. *)
Theorem findOccurences_any_start (target : list codeUnit) (character : codeUnit)
    (startIndex : Z) (result : list Z) :
  ∃ found,
    findOccurences target character startIndex result = result ++ found
    ∧ increasing found
    ∧ (∀ p, p ∈ found ↔ (startIndex <= p)%Z ∧ unitAt target p = Some character)
    ∧ ((Z.of_nat (length target) <= startIndex)%Z → found = [])
    ∧ ((startIndex <= 0)%Z → found = findOccurences target character 0%Z []).
Proof.
  exists (occurrencesFrom target character 0%Z startIndex).
  split; [apply findOccurences_spec|]. split; [apply occurrencesFrom_increasing|].
  split; [apply occurrencesFrom_elem_0|]. split.
  - intros Hpast.
    destruct (occurrencesFrom target character 0%Z startIndex) as [|p rest] eqn:E; [done|].
    assert (p ∈ occurrencesFrom target character 0%Z startIndex) as Hin
      by (rewrite E; by apply elem_of_cons; left).
    apply occurrencesFrom_elem_0 in Hin as [Hge Hu]. apply unitAt_bounds in Hu. lia.
  - intros Hneg. rewrite findOccurences_spec. simpl.
    apply occurrencesFrom_start_irrelevant; lia.
Qed.

(** X10. The score of a non-empty array depends on its two ends and its
    length only, whatever lies between and whether or not the array is
    increasing: it is the last position minus the first minus the number of
    steps. *)
Theorem score_from_ends (first : Z) (rest : list Z) :
  calculateExtraChars (first :: rest)
  = (lastOf (first :: rest) - first - Z.of_nat (length rest))%Z.
Proof.
  cbn [calculateExtraChars]. rewrite extraCharsFrom_span. unfold lastOf.
  destruct rest as [|p rest']; [simpl; lia|].
  rewrite last_cons_cons.
  destruct (last (p :: rest')) eqn:E; [|by apply last_None in E].
  cbn [default]. unfold id. lia.
Qed.

(** ** A query that occurs in the target as a substring *)

Lemma seq_positions_increasing k n : increasing (List.map Z.of_nat (seq k n)).
Proof.
  revert k. induction n as [|n IH]; intros k; simpl; [constructor|].
  constructor; [apply IH|]. apply Forall_forall. intros p Hp.
  apply list_elem_of_In, in_map_iff in Hp as (i & <- & Hi). apply in_seq in Hi. lia.
Qed.

Lemma seq_positions_spell before characters after :
  Forall2 (fun p character => unitAt (before ++ characters ++ after) p = Some character)
    (List.map Z.of_nat (seq (length before) (length characters))) characters.
Proof.
  revert before. induction characters as [|c rest IH]; intros before; simpl; [constructor|].
  constructor.
  - unfold unitAt. destruct (Z.ltb_spec (Z.of_nat (length before)) 0); [lia|].
    rewrite Nat2Z.id. by apply list_lookup_middle.
  - specialize (IH (before ++ [c])). rewrite <- app_assoc in IH. simpl in IH.
    rewrite length_app in IH. simpl in IH. by rewrite Nat.add_1_r in IH.
Qed.

Lemma contiguous_from chain first :
  contiguous chain → head chain = Some first →
  chain = List.map (fun i => (first + Z.of_nat i)%Z) (seq 0 (length chain)).
Proof.
  revert first. induction chain as [|a rest IH]; intros first Hc Hh; [done|].
  simpl in Hh. injection Hh as ->. simpl. f_equal; [lia|].
  rewrite <- seq_shift, List.map_map.
  destruct rest as [|b rest']; [done|].
  assert (b = first + 1)%Z as -> by (by apply (Hc 0 first b)).
  rewrite (IH (first + 1)%Z) at 1; [|intros i x y Hx Hy; by apply (Hc (S i))|done].
  apply List.map_ext. intros i. lia.
Qed.

(** The value of a call whose lowercased query occurs in the lowercased
    target as a substring. *)
Lemma substring_match_value (query target before after : list codeUnit) :
  query ≠ [] → length query ≤ length target → toLowerCase query ≠ [] →
  toLowerCase target = before ++ toLowerCase query ++ after →
  ∃ result,
    matchFuzzy query target ∅ = Normal (Some result)
    ∧ extraChars result = 0%Z
    ∧ (0 <= offset result <= Z.of_nat (length before))%Z
    ∧ positions result
      = List.map (fun i => (offset result + Z.of_nat i)%Z)
          (seq 0 (length (toLowerCase query))).
Proof.
  intros Hq Hguard Hlow Htarget.
  set (chain := List.map Z.of_nat (seq (length before) (length (toLowerCase query)))).
  assert (embedding (toLowerCase target) (toLowerCase query) chain) as Hemb.
  { split; [apply seq_positions_increasing|]. rewrite Htarget.
    apply seq_positions_spell. }
  assert (calculateExtraChars chain = 0%Z) as Hzero.
  { apply calculateExtraChars_increasing; [apply seq_positions_increasing|].
    intros i a b Ha Hb. unfold chain in *.
    rewrite list_lookup_fmap in Ha, Hb.
    destruct (seq _ _ !! i) as [x|] eqn:Ex; [|done].
    destruct (seq _ _ !! S i) as [y|] eqn:Ey; [|done].
    apply lookup_seq in Ex as [-> _]. apply lookup_seq in Ey as [-> _].
    simpl in *. injection Ha as <-. injection Hb as <-. lia. }
  assert (head chain = Some (Z.of_nat (length before))) as Hhead.
  { unfold chain. by destruct (toLowerCase query) as [|c rest]. }
  pose proof (hasLessThanMaximumCharacters_empty (toLowerCase target) chain) as Hok.
  destruct (embedding_gives_match _ _ _ _ Hq Hguard Hlow Hemb Hok) as [result H].
  exists result. split; [done|].
  pose proof (matchFuzzy_some _ _ _ _ H) as (_ & _ & _ & _ & Hlen & _).
  pose proof (matchFuzzy_some_chain _ _ _ _ H) as (Hc & _ & _ & Hscore).
  pose proof (matchFuzzy_some_head _ _ _ _ H) as Hoff. simpl in *.
  destruct (best_score_least _ _ _ _ _ H Hemb Hok) as (found & _ & _ & _ & H1 & H2).
  pose proof (candidate_length _ _ Hc) as Hlen'. rewrite Hlen in Hlen'.
  pose proof Hc as [_ Hinc].
  destruct (calculateExtraChars_increasing _ Hinc) as [Hge Hcontig].
  assert (extraChars result = 0%Z) as Hextra by lia.
  split; [done|]. split.
  - destruct (best_start_least _ _ _ _ _ H Hemb Hok) as (first & Hf & Hle); [lia|].
    rewrite Hhead in Hf. injection Hf as <-.
    rewrite head_lookup in Hoff.
    destruct (candidate_lookup _ _ _ _ _ _ Hc Hoff) as (c & _ & Hu).
    apply unitAt_bounds in Hu. lia.
  - rewrite <- Hlen'. apply contiguous_from; [|done].
    apply Hcontig. lia.
Qed.

(** ** A longer target *)

Lemma increasing_shift chain m :
  increasing chain → increasing (List.map (fun p => (p + m)%Z) chain).
Proof.
  induction 1 as [|p rest Hs IH Hall]; simpl; [constructor|].
  constructor; [done|]. rewrite Forall_forall in Hall. apply Forall_forall.
  intros q Hq. apply list_elem_of_In, in_map_iff in Hq as (x & <- & Hx).
  apply list_elem_of_In, Hall in Hx. lia.
Qed.

Lemma unitAt_middle before target after p character :
  unitAt target p = Some character →
  unitAt (before ++ target ++ after) (p + Z.of_nat (length before)) = Some character.
Proof.
  intros H. pose proof (unitAt_bounds _ _ _ H) as Hb. unfold unitAt in *.
  destruct (Z.ltb_spec p 0); [lia|].
  destruct (Z.ltb_spec (p + Z.of_nat (length before)) 0); [lia|].
  replace (Z.to_nat (p + Z.of_nat (length before)))
    with (length before + Z.to_nat p) by lia.
  rewrite lookup_app_r by lia.
  replace (length before + Z.to_nat p - length before) with (Z.to_nat p) by lia.
  by apply lookup_app_l_Some.
Qed.

Lemma substring_in_range target first final :
  (0 <= first)%Z → (first <= final)%Z → (final <= Z.of_nat (length target))%Z →
  substring target first final
  = take (Z.to_nat (final - first)) (drop (Z.to_nat first) target).
Proof.
  intros H0 H1 H2. unfold substring.
  rewrite (Z.max_l first 0), (Z.max_l final 0) by lia.
  rewrite (Z.min_l first (Z.of_nat (length target))),
    (Z.min_l final (Z.of_nat (length target))) by lia.
  by rewrite (Z.min_l first final), (Z.max_r first final) by lia.
Qed.

Lemma substring_middle before target after first final :
  (0 <= first)%Z → (first <= final)%Z → (final <= Z.of_nat (length target))%Z →
  substring (before ++ target ++ after)
    (first + Z.of_nat (length before)) (final + Z.of_nat (length before))
  = substring target first final.
Proof.
  intros H0 H1 H2.
  rewrite !substring_in_range by (rewrite ?length_app; lia).
  replace (final + Z.of_nat (length before) - (first + Z.of_nat (length before)))%Z
    with (final - first)%Z by lia.
  replace (Z.to_nat (first + Z.of_nat (length before)))
    with (length before + Z.to_nat first) by lia.
  rewrite <- drop_drop, drop_app_length, drop_app_le by lia.
  apply take_app_le. rewrite length_drop. lia.
Qed.

Lemma forallb_pointwise {A : Type} (f g : A → bool) (l : list A) :
  (∀ x, f x = g x) → forallb f l = forallb g l.
Proof. intros H. induction l as [|x l IH]; simpl; [done|]. by rewrite H, IH. Qed.

Lemma hasLessThanMaximumCharacters_middle before target after chain charLimits :
  chain ≠ [] → increasing chain →
  Forall (fun p => (0 <= p < Z.of_nat (length target))%Z) chain →
  hasLessThanMaximumCharacters (before ++ target ++ after)
    (List.map (fun p => (p + Z.of_nat (length before))%Z) chain) charLimits
  = hasLessThanMaximumCharacters target chain charLimits.
Proof.
  intros Hne Hinc Hb. unfold hasLessThanMaximumCharacters. apply forallb_pointwise.
  intros [k v]. simpl. f_equal. unfold exceedsLimit, spanOf.
  destruct (head chain) as [first|] eqn:Hh; [|by apply head_None in Hh].
  destruct (last chain) as [final|] eqn:Hl; [|by apply last_None in Hl].
  assert (head (List.map (fun p => (p + Z.of_nat (length before))%Z) chain)
          = Some (first + Z.of_nat (length before))%Z) as ->
    by (destruct chain; simpl in *; congruence).
  assert (last (List.map (fun p => (p + Z.of_nat (length before))%Z) chain)
          = Some (final + Z.of_nat (length before))%Z) as ->.
  { apply last_Some in Hl as [l' ->]. rewrite List.map_app. simpl. apply last_snoc. }
  pose proof (increasing_head_le_last _ _ _ Hinc Hh Hl) as Hle.
  rewrite Forall_forall in Hb.
  assert (0 <= first)%Z by (apply head_Some_elem_of, Hb in Hh; lia).
  assert (final < Z.of_nat (length target))%Z by (apply last_Some_elem_of, Hb in Hl; lia).
  by rewrite substring_middle by lia.
Qed.

Lemma embedding_middle before target after characters chain :
  embedding target characters chain →
  embedding (before ++ target ++ after) characters
    (List.map (fun p => (p + Z.of_nat (length before))%Z) chain).
Proof.
  intros [Hinc Hall]. split; [by apply increasing_shift|].
  apply Forall2_fmap_l. eapply Forall2_impl; [exact Hall|].
  intros p c Hp. by apply unitAt_middle.
Qed.

Lemma calculateExtraChars_shift chain m :
  calculateExtraChars (List.map (fun p => (p + m)%Z) chain) = calculateExtraChars chain.
Proof.
  destruct chain as [|first rest]; [done|]. simpl.
  assert (∀ total previous,
            extraCharsFrom (List.map (fun p => (p + m)%Z) rest) total (previous + m)%Z
            = extraCharsFrom rest total previous) as Hshift.
  { induction rest as [|p rest IH]; intros total previous; simpl; [done|].
    rewrite IH. f_equal. lia. }
  apply Hshift.
Qed.

(** A match survives when the lowercased target grows, as long as the
    guard lets the new target through. *)
Lemma longer_target_value (query target target' before after : list codeUnit)
    (characterLimit : gmap codeUnit Z) (result : MatchResult) :
  matchFuzzy query target characterLimit = Normal (Some result) →
  length query ≤ length target' →
  toLowerCase target' = before ++ toLowerCase target ++ after →
  ∃ result',
    matchFuzzy query target' characterLimit = Normal (Some result')
    ∧ (extraChars result' <= extraChars result)%Z.
Proof.
  intros H Hguard Htarget.
  pose proof (matchFuzzy_some _ _ _ _ H) as (Hq & _ & _ & Hdone & Hlen & _).
  pose proof (matchFuzzy_some_chain _ _ _ _ H) as (Hc & _ & Hok & Hscore).
  pose proof (matchFuzzy_some_lists _ _ _ _ H) as [Hlow _]. simpl in *.
  pose proof (candidate_length _ _ Hc) as Hlen'. rewrite Hlen in Hlen'.
  apply candidate_iff_embedding in Hc; [|done].
  set (chain := List.map (fun p => (p + Z.of_nat (length before))%Z) (positions result)).
  assert (embedding (toLowerCase target') (toLowerCase query) chain) as Hemb
    by (rewrite Htarget; by apply embedding_middle).
  assert (hasLessThanMaximumCharacters (toLowerCase target') chain characterLimit = true)
    as Hok'.
  { rewrite Htarget, <- Hok. destruct Hc as [Hinc Hall].
    apply hasLessThanMaximumCharacters_middle; [|done|].
    - intros E. rewrite E in Hlen'. by destruct (toLowerCase query).
    - apply Forall_forall. intros p Hp. apply list_elem_of_lookup in Hp as [i Hi].
      destruct (Forall2_lookup_l _ _ _ _ _ Hall Hi) as (c & _ & Hu).
      by apply unitAt_bounds in Hu. }
  destruct (embedding_gives_match _ _ _ _ Hq Hguard Hlow Hemb Hok') as [result' H'].
  exists result'. split; [done|].
  destruct (best_score_least _ _ _ _ _ H' Hemb Hok') as (found & _ & _ & _ & H1 & H2).
  unfold chain in H2. rewrite calculateExtraChars_shift in H2. lia.
Qed.

(** ** The stack-aware functions and the functions above *)

Lemma foldlC_normal {A B : Type} (step : A → B → completion A) (f : A → B → A) a l :
  (∀ a b, step a b = Normal (f a b)) →
  foldlC step a l = Normal (foldl f a l).
Proof.
  intros H. revert a. induction l as [|b l IH]; intros a; simpl; [done|].
  by rewrite H, IH.
Qed.

Lemma foldlC_cases {A B : Type} (step : A → B → completion A) (f : A → B → A) a l :
  (∀ a b, step a b = Throw ∨ step a b = Normal (f a b)) →
  foldlC step a l = Throw ∨ foldlC step a l = Normal (foldl f a l).
Proof.
  intros H. revert a. induction l as [|b l IH]; intros a; simpl; [by right|].
  destruct (H a b) as [-> | ->]; [by left | apply IH].
Qed.

Lemma indexOfStringFrom_unit target character position startIndex :
  indexOfStringFrom target [character] position startIndex
  = indexOfFrom target character position startIndex.
Proof.
  revert position. induction target as [|u rest IH]; intros position; simpl; [done|].
  rewrite andb_true_r, IH. done.
Qed.

Lemma indexOfString_unit target character startIndex :
  indexOfString target [character] startIndex = indexOf target character startIndex.
Proof. apply indexOfStringFrom_unit. Qed.

Lemma occurrencesFrom_length target character position startIndex :
  length (occurrencesFrom target character position startIndex) ≤ length target.
Proof.
  revert position. induction target as [|u rest IH]; intros position; simpl; [lia|].
  rewrite length_app. specialize (IH (position + 1)%Z).
  destruct (_ && _); simpl; lia.
Qed.

(** With one frame more than there are occurrences, the recursion returns
    what [findOccurences] returns. *)
Lemma findOccurencesIn_enough frames target character startIndex result :
  length (occurrencesFrom target character 0%Z startIndex) < frames →
  findOccurencesIn frames target [character] startIndex result
  = Normal (findOccurences target character startIndex result).
Proof.
  revert startIndex result.
  induction frames as [|frames IH]; intros startIndex result H; [lia|].
  simpl. rewrite indexOfString_unit. rewrite findOccurences_spec.
  unfold indexOf in *.
  destruct (0 <=? indexOfFrom target character 0 startIndex)%Z eqn:E.
  - rewrite (occurrencesFrom_some target character 0%Z startIndex) in H |- * by lia.
    simpl in H. rewrite IH by lia. rewrite findOccurences_spec.
    by rewrite <- app_assoc.
  - rewrite occurrencesFrom_none by lia. by rewrite app_nil_r.
Qed.

(** With no more frames than occurrences, it overflows the stack. *)
Lemma findOccurencesIn_overflow frames target character startIndex result :
  frames ≤ length (occurrencesFrom target character 0%Z startIndex) →
  findOccurencesIn frames target [character] startIndex result = Throw.
Proof.
  revert startIndex result.
  induction frames as [|frames IH]; intros startIndex result H; [done|].
  simpl. rewrite indexOfString_unit. unfold indexOf in *.
  destruct (0 <=? indexOfFrom target character 0 startIndex)%Z eqn:E.
  - rewrite (occurrencesFrom_some target character 0%Z startIndex) in H by lia.
    simpl in H. apply IH. lia.
  - rewrite occurrencesFrom_none in H by lia. simpl in H. lia.
Qed.

Lemma findOccurencesIn_cases frames target character startIndex result :
  findOccurencesIn frames target [character] startIndex result = Throw
  ∨ findOccurencesIn frames target [character] startIndex result
    = Normal (findOccurences target character startIndex result).
Proof.
  destruct (decide (length (occurrencesFrom target character 0%Z startIndex) < frames)).
  - right. by apply findOccurencesIn_enough.
  - left. apply findOccurencesIn_overflow. lia.
Qed.

Lemma indexOfStringFrom_bounds target character position startIndex :
  character ≠ [] →
  (indexOfStringFrom target character position startIndex = -1
   ∨ position <= indexOfStringFrom target character position startIndex
     ∧ startIndex <= indexOfStringFrom target character position startIndex
     ∧ indexOfStringFrom target character position startIndex
       < position + Z.of_nat (length target))%Z.
Proof.
  intros Hc. revert position.
  induction target as [|u rest IH]; intros position; simpl.
  - destruct character; [done | by left].
  - destruct ((startIndex <=? position)%Z && startsWith (u :: rest) character) eqn:E.
    + right. apply andb_true_iff in E as [E _]. lia.
    + destruct (IH (position + 1)%Z) as [-> | H]; [by left | right; lia].
Qed.

(** A key whose lowercase form has several units: the search still ends
    within the length of the span. *)
Lemma findOccurencesIn_returns frames target character startIndex result :
  character ≠ [] →
  (Z.max 0 (Z.of_nat (length target) - Z.max 0 startIndex) < Z.of_nat frames)%Z →
  ∃ occurences,
    findOccurencesIn frames target character startIndex result = Normal occurences.
Proof.
  intros Hc. revert startIndex result.
  induction frames as [|frames IH]; intros startIndex result H; [lia|].
  simpl. unfold indexOfString.
  destruct (indexOfStringFrom_bounds target character 0%Z startIndex Hc) as [E | E].
  - rewrite E. simpl. by eexists.
  - destruct (0 <=? indexOfStringFrom target character 0 startIndex)%Z eqn:E';
      [|by eexists].
    apply IH. lia.
Qed.

(** The empty string is found at every start index, so the search for it
    never ends. *)
Lemma indexOfStringFrom_empty target position startIndex :
  (0 <= position)%Z →
  (0 <= indexOfStringFrom target [] position startIndex)%Z.
Proof.
  revert position. induction target as [|u rest IH]; intros position H; simpl; [lia|].
  destruct (startIndex <=? position)%Z; simpl; [lia | apply IH; lia].
Qed.

Lemma findOccurencesIn_empty frames target startIndex result :
  findOccurencesIn frames target [] startIndex result = Throw.
Proof.
  revert startIndex result. induction frames as [|frames IH]; intros; [done|].
  simpl. unfold indexOfString.
  pose proof (indexOfStringFrom_empty target 0%Z startIndex ltac:(lia)).
  destruct (0 <=? indexOfStringFrom target [] 0 startIndex)%Z eqn:E; [apply IH | lia].
Qed.

Lemma extendCombinationsIn_enough frames levels depth result :
  2 * length levels < frames →
  extendCombinationsIn frames levels depth result
  = Normal (extendCombinations levels depth result).
Proof.
  revert frames depth result.
  induction levels as [|currentOccurence deeper IH]; intros frames depth result H.
  - destruct frames; [simpl in H; lia | done].
  - destruct frames as [|[|frames]]; [simpl in H; lia..|].
    simpl in H. cbn [extendCombinationsIn extendCombinations call].
    apply foldlC_normal. intros result' occurence.
    apply foldlC_normal. intros result'' i.
    destruct (result'' !! i) as [set|]; [|done].
    destruct (_ && _); [|done].
    destruct deeper as [|next deeper']; [done|].
    apply IH. simpl in *. lia.
Qed.

Lemma extendCombinationsIn_cases frames levels depth result :
  extendCombinationsIn frames levels depth result = Throw
  ∨ extendCombinationsIn frames levels depth result
    = Normal (extendCombinations levels depth result).
Proof.
  revert frames depth result.
  induction levels as [|currentOccurence deeper IH]; intros frames depth result.
  - destruct frames; [by left | by right].
  - destruct frames as [|frames]; [by left|].
    cbn [extendCombinationsIn extendCombinations call].
    apply foldlC_cases. intros result' occurence.
    apply foldlC_cases. intros result'' i.
    destruct frames as [|frames]; [by left|]. cbn [call].
    destruct (result'' !! i) as [set|]; [|by right].
    destruct (_ && _); [|by right].
    destruct deeper as [|next deeper']; [by right|].
    apply IH.
Qed.

Lemma foldl_push (result : list (list Z)) (currentOccurence : list Z) :
  foldl (fun result occurence => result ++ [[occurence]]) result currentOccurence
  = result ++ List.map (fun occurence => [occurence]) currentOccurence.
Proof.
  revert result. induction currentOccurence as [|o l IH]; intros result; simpl.
  - by rewrite app_nil_r.
  - rewrite IH. by rewrite <- app_assoc.
Qed.

Lemma getPossibleCombinationsIn_enough frames characterPositions result :
  2 * length characterPositions < frames →
  getPossibleCombinationsIn frames characterPositions result
  = getPossibleCombinations characterPositions result.
Proof.
  intros H. destruct frames as [|frames]; [lia|].
  unfold getPossibleCombinationsIn, getPossibleCombinations. cbn [call].
  destruct characterPositions as [|currentOccurence deeper]; [done|].
  destruct frames as [|frames]; [simpl in H; lia|].
  rewrite (foldlC_normal _ (fun result occurence => result ++ [[occurence]]))
    by (intros; done).
  rewrite foldl_push.
  destruct deeper as [|next deeper']; [done|].
  rewrite extendCombinationsIn_enough; [done | simpl in *; lia].
Qed.

Lemma getPossibleCombinationsIn_cases frames characterPositions result :
  getPossibleCombinationsIn frames characterPositions result = Throw
  ∨ getPossibleCombinationsIn frames characterPositions result
    = getPossibleCombinations characterPositions result.
Proof.
  destruct frames as [|frames]; [by left|].
  unfold getPossibleCombinationsIn, getPossibleCombinations. cbn [call].
  destruct characterPositions as [|currentOccurence deeper]; [by left|].
  destruct (foldlC_cases
              (fun result occurence =>
                 call frames (fun _ => Normal (result ++ [[occurence]])))
              (fun result occurence => result ++ [[occurence]])
              result currentOccurence) as [-> | ->]; [| by left |].
  { intros a b. destruct frames; [by left | by right]. }
  rewrite foldl_push.
  destruct deeper as [|next deeper']; [by right|].
  destruct (extendCombinationsIn_cases frames (next :: deeper') 1
              (result ++ List.map (fun occurence => [occurence]) currentOccurence))
    as [-> | ->]; [by left | by right].
Qed.

Lemma substring_length target first final :
  length (substring target first final) ≤ length target.
Proof.
  unfold substring. rewrite length_take, length_drop. lia.
Qed.

Lemma spanOf_length target foundChars :
  length (spanOf target foundChars) ≤ length target.
Proof.
  unfold spanOf. destruct (head foundChars); [|done].
  destruct (last foundChars); [apply substring_length | done].
Qed.

Lemma forallb_Permutation {A : Type} (f : A → bool) (l l' : list A) :
  l ≡ₚ l' → forallb f l = forallb f l'.
Proof.
  induction 1 as [|x l l' _ IH|x y l|l l' l'' _ IH1 _ IH2]; simpl.
  - done.
  - by rewrite IH.
  - destruct (f x), (f y); done.
  - by rewrite IH1.
Qed.

Lemma hasLessThanMaximumCharacters_keys keys target foundChars charLimits :
  keys ≡ₚ (map_to_list charLimits).*1 →
  hasLessThanMaximumCharacters target foundChars charLimits
  = forallb (fun character => negb (exceedsLimit target foundChars charLimits character))
      keys.
Proof.
  intros H. rewrite (forallb_Permutation _ _ _ H). clear H.
  unfold hasLessThanMaximumCharacters.
  induction (map_to_list charLimits) as [|entry l IH]; [done|].
  rewrite fmap_cons. cbn [forallb]. by rewrite IH.
Qed.

Lemma visitKeys_enough frames keys target foundChars charLimits :
  length target < frames →
  Forall (fun character => toLowerCase [character] ≠ []) keys →
  visitKeys frames keys target foundChars charLimits
  = Normal (forallb
              (fun character => negb (exceedsLimit target foundChars charLimits character))
              keys).
Proof.
  intros Hframes Hkeys.
  induction Hkeys as [|character keys Hlow _ IH]; [done|].
  cbn [visitKeys forallb]. unfold exceedsLimit at 1.
  pose proof (spanOf_length target foundChars) as Hspan.
  destruct (toLowerCase [character]) as [|lowered [|second more]] eqn:E; [done| |].
  - rewrite findOccurencesIn_enough.
    2:{ pose proof (occurrencesFrom_length (spanOf target foundChars) lowered 0 0). lia. }
    cbn [limitOf]. destruct (charLimits !! lowered) as [limit|]; [|exact IH].
    destruct (limit <? _)%Z; [done | exact IH].
  - destruct (findOccurencesIn_returns frames (spanOf target foundChars)
                (lowered :: second :: more) 0%Z []) as [occurences ->]; [done | lia |].
    exact IH.
Qed.

Lemma visitKeys_cases frames keys target foundChars charLimits :
  visitKeys frames keys target foundChars charLimits = Throw
  ∨ visitKeys frames keys target foundChars charLimits
    = Normal (forallb
                (fun character =>
                   negb (exceedsLimit target foundChars charLimits character))
                keys).
Proof.
  induction keys as [|character keys IH]; [by right|].
  cbn [visitKeys forallb]. unfold exceedsLimit at 1.
  destruct (toLowerCase [character]) as [|lowered [|second more]] eqn:E.
  - left. by rewrite findOccurencesIn_empty.
  - destruct (findOccurencesIn_cases frames (spanOf target foundChars) lowered 0%Z [])
      as [-> | ->]; [by left|].
    cbn [limitOf]. destruct (charLimits !! lowered) as [limit|]; [|exact IH].
    destruct (limit <? _)%Z; [by right | exact IH].
  - destruct (findOccurencesIn frames _ _ _ _); [|by left]. exact IH.
Qed.

Lemma hasLessThanMaximumCharactersIn_enough frames keys target foundChars charLimits :
  length target + 1 < frames →
  keys ≡ₚ (map_to_list charLimits).*1 →
  Forall (fun character => toLowerCase [character] ≠ []) keys →
  hasLessThanMaximumCharactersIn frames keys target foundChars charLimits
  = Normal (hasLessThanMaximumCharacters target foundChars charLimits).
Proof.
  intros Hframes Hperm Hkeys. destruct frames as [|frames]; [lia|].
  unfold hasLessThanMaximumCharactersIn. cbn [call].
  rewrite visitKeys_enough by (done || lia).
  by rewrite (hasLessThanMaximumCharacters_keys keys).
Qed.

Lemma hasLessThanMaximumCharactersIn_cases frames keys target foundChars charLimits :
  keys ≡ₚ (map_to_list charLimits).*1 →
  hasLessThanMaximumCharactersIn frames keys target foundChars charLimits = Throw
  ∨ hasLessThanMaximumCharactersIn frames keys target foundChars charLimits
    = Normal (hasLessThanMaximumCharacters target foundChars charLimits).
Proof.
  intros Hperm. destruct frames as [|frames]; [by left|].
  unfold hasLessThanMaximumCharactersIn. cbn [call].
  rewrite (hasLessThanMaximumCharacters_keys keys) by done.
  apply visitKeys_cases.
Qed.

Lemma indexOccurencesIn_enough frames targetLowerCased characters i occurencesPerChar :
  length targetLowerCased < frames →
  indexOccurencesIn frames targetLowerCased characters i occurencesPerChar
  = indexOccurences targetLowerCased characters i occurencesPerChar.
Proof.
  intros Hframes. revert i occurencesPerChar.
  induction characters as [|character characters IH]; intros i occurencesPerChar; [done|].
  cbn [indexOccurencesIn indexOccurences].
  destruct (if (length occurencesPerChar =? 0)%nat then _ else _) as [startIndex|];
    [|done].
  rewrite findOccurencesIn_enough.
  2:{ pose proof (occurrencesFrom_length targetLowerCased character 0 startIndex). lia. }
  destruct (length _ =? 0)%nat; [done | apply IH].
Qed.

Lemma indexOccurencesIn_cases frames targetLowerCased characters i occurencesPerChar :
  indexOccurencesIn frames targetLowerCased characters i occurencesPerChar = Throw
  ∨ indexOccurencesIn frames targetLowerCased characters i occurencesPerChar
    = indexOccurences targetLowerCased characters i occurencesPerChar.
Proof.
  revert i occurencesPerChar.
  induction characters as [|character characters IH]; intros i occurencesPerChar;
    [by right|].
  cbn [indexOccurencesIn indexOccurences].
  destruct (if (length occurencesPerChar =? 0)%nat then _ else _) as [startIndex|];
    [|by left].
  destruct (findOccurencesIn_cases frames targetLowerCased character startIndex [])
    as [-> | ->]; [by left|].
  destruct (length _ =? 0)%nat; [by right | apply IH].
Qed.

Lemma selectBestIn_enough frames keys targetLowerCased characterLimit combinations best :
  length targetLowerCased + 1 < frames →
  keys ≡ₚ (map_to_list characterLimit).*1 →
  Forall (fun character => toLowerCase [character] ≠ []) keys →
  selectBestIn frames keys targetLowerCased characterLimit combinations best
  = Normal (selectBest targetLowerCased characterLimit combinations best).
Proof.
  intros Hframes Hperm Hkeys. revert best.
  induction combinations as [|set combinations IH]; intros best; [done|].
  cbn [selectBestIn selectBest].
  rewrite hasLessThanMaximumCharactersIn_enough by done.
  destruct (hasLessThanMaximumCharacters targetLowerCased set characterLimit);
    cbn [negb]; [|apply IH].
  unfold calculateExtraCharsIn. destruct frames as [|frames]; [lia|]. cbn [call].
  cbv zeta. destruct (_ =? 0)%Z; [done | apply IH].
Qed.

Lemma selectBestIn_cases frames keys targetLowerCased characterLimit combinations best :
  keys ≡ₚ (map_to_list characterLimit).*1 →
  selectBestIn frames keys targetLowerCased characterLimit combinations best = Throw
  ∨ selectBestIn frames keys targetLowerCased characterLimit combinations best
    = Normal (selectBest targetLowerCased characterLimit combinations best).
Proof.
  intros Hperm. revert best.
  induction combinations as [|set combinations IH]; intros best; [by right|].
  cbn [selectBestIn selectBest].
  destruct (hasLessThanMaximumCharactersIn_cases frames keys targetLowerCased set
              characterLimit Hperm) as [-> | ->]; [by left|].
  destruct (hasLessThanMaximumCharacters targetLowerCased set characterLimit);
    cbn [negb]; [|apply IH].
  unfold calculateExtraCharsIn. destruct frames as [|frames]; [by left|]. cbn [call].
  cbv zeta. destruct (_ =? 0)%Z; [by right | apply IH].
Qed.

(** Frames enough for a call of [matchFuzzy]: the occurrences of one unit in
    the target for [findOccurences], two frames for each unit of the query
    for the enumerator, and the calls themselves. *)
Definition enoughFrames (frames : nat) (query target : list codeUnit) : Prop :=
  length (toLowerCase target) + 2 * length (toLowerCase query) + 2 < frames.

(** The order in which the keys are visited, and lowercase forms of keys
    that are not empty. *)
Definition keyOrder (keys : list codeUnit) (characterLimit : gmap codeUnit Z) : Prop :=
  keys ≡ₚ (map_to_list characterLimit).*1
  ∧ Forall (fun character => toLowerCase [character] ≠ []) keys.

(** With frames enough, the call returns what the function above returns. *)
Lemma matchFuzzyIn_enough frames keys query target characterLimit :
  enoughFrames frames query target →
  keyOrder keys characterLimit →
  matchFuzzyIn frames keys query target characterLimit
  = matchFuzzy query target characterLimit.
Proof.
  unfold enoughFrames. intros Hframes [Hperm Hkeys].
  destruct frames as [|frames]; [lia|].
  unfold matchFuzzyIn, matchFuzzy. cbn [call].
  destruct (_ || _); [done|]. cbv zeta.
  rewrite indexOccurencesIn_enough by lia.
  rewrite indexOccurences_run.
  destruct (occurrenceLists_length (toLowerCase target) (toLowerCase query) 0%Z)
    as (_ & Hfull & _).
  destruct (occurrenceLists (toLowerCase target) (toLowerCase query) 0%Z)
    as [occurencesPerChar [|]]; [|done].
  simpl in Hfull. specialize (Hfull eq_refl).
  rewrite getPossibleCombinationsIn_enough by lia.
  destruct (getPossibleCombinations occurencesPerChar []) as [combinations|]; [|done].
  rewrite selectBestIn_enough by (done || lia).
  done.
Qed.

(** Whatever the frames, the call overflows the stack or returns what the
    function above returns. *)
Lemma matchFuzzyIn_agrees frames keys query target characterLimit :
  keys ≡ₚ (map_to_list characterLimit).*1 →
  matchFuzzyIn frames keys query target characterLimit = Throw
  ∨ matchFuzzyIn frames keys query target characterLimit
    = matchFuzzy query target characterLimit.
Proof.
  intros Hperm. destruct frames as [|frames]; [by left|].
  unfold matchFuzzyIn, matchFuzzy. cbn [call].
  destruct (_ || _); [by right|]. cbv zeta.
  destruct (indexOccurencesIn_cases frames (toLowerCase target) (toLowerCase query) 0 [])
    as [-> | ->]; [by left|].
  destruct (indexOccurences _ _ _ _) as [[occurencesPerChar [|]]|];
    [|by right|by right].
  destruct (getPossibleCombinationsIn_cases frames occurencesPerChar [])
    as [-> | ->]; [by left|].
  destruct (getPossibleCombinations occurencesPerChar []) as [combinations|];
    [|by right].
  destruct (selectBestIn_cases frames keys (toLowerCase target) characterLimit
              combinations None Hperm) as [-> | ->]; [by left | by right].
Qed.

Lemma matchFuzzyIn_result frames keys query target characterLimit result :
  keys ≡ₚ (map_to_list characterLimit).*1 →
  matchFuzzyIn frames keys query target characterLimit = Normal result →
  matchFuzzy query target characterLimit = Normal result.
Proof.
  intros Hperm H.
  destruct (matchFuzzyIn_agrees frames keys query target characterLimit Hperm)
    as [E | E]; congruence.
Qed.

(** ** What a call returns *)

Lemma keyOrder_empty : keyOrder [] ∅.
Proof. split; [by rewrite map_to_list_empty | constructor]. Qed.

Lemma occurrencesFrom_repeat character n position :
  (0 <= position)%Z →
  length (occurrencesFrom (repeat character n) character position 0%Z) = n.
Proof.
  revert position. induction n as [|n IH]; intros position H; simpl; [done|].
  rewrite N.eqb_refl, andb_true_r.
  replace (0 <=? position)%Z with true by lia. simpl. rewrite IH; [done | lia].
Qed.

(** Whatever the number of frames, some call overflows the stack: a
    one-unit query against a run of that unit as long as the frames. *)
Lemma matchFuzzyIn_overflow frames keys query target characterLimit character :
  query ≠ [] → length query ≤ length target →
  toLowerCase query = [character] →
  toLowerCase target = repeat character (length target) →
  frames ≤ length target →
  matchFuzzyIn frames keys query target characterLimit = Throw.
Proof.
  intros Hq Hlen Hlow Hrun Hframes.
  destruct frames as [|frames]; [done|].
  unfold matchFuzzyIn. cbn [call].
  destruct (length target =? 0)%nat eqn:E1; [apply Nat.eqb_eq in E1; lia|].
  destruct (length query =? 0)%nat eqn:E2;
    [apply Nat.eqb_eq in E2; destruct query; simpl in *; [done | lia]|].
  destruct (length target <? length query)%nat eqn:E3; [apply Nat.ltb_lt in E3; lia|].
  cbn [orb]. cbv zeta. rewrite Hlow, Hrun. cbn [indexOccurencesIn length Nat.eqb].
  rewrite findOccurencesIn_overflow; [done|].
  rewrite occurrencesFrom_repeat; lia.
Qed.

(** C2 (amended). Called with frames enough for its recursions, with keys
    whose lowercase forms are not empty and a query that lowercasing does not
    empty, [matchFuzzy] does not throw.  With the occurrence lists its
    indexing loop builds, it returns [null] exactly when the query is empty,
    or the target is empty, or the target is shorter than the query, or some
    query character has no occurrence at or after its lower bound, or every
    complete candidate chain fails the character-limit filter; in every
    other case it returns a result. *)
Theorem no_match_cases (frames : nat) (keys query target : list codeUnit)
    (characterLimit : gmap codeUnit Z) :
  enoughFrames frames query target →
  keyOrder keys characterLimit →
  (query ≠ [] → toLowerCase query ≠ []) →
  ∃ occurencesPerChar completed,
    indexOccurencesIn (frames - 1) (toLowerCase target) (toLowerCase query) 0 []
    = Normal (occurencesPerChar, completed)
    ∧ matchFuzzyIn frames keys query target characterLimit ≠ Throw
    ∧ (matchFuzzyIn frames keys query target characterLimit = Normal None
       ↔ query = [] ∨ target = [] ∨ length target < length query
         ∨ noOccurrence (toLowerCase target) (toLowerCase query) occurencesPerChar
         ∨ ∀ chain, candidate occurencesPerChar chain →
             hasLessThanMaximumCharacters (toLowerCase target) chain characterLimit
             = false)
    ∧ (matchFuzzyIn frames keys query target characterLimit ≠ Normal None →
       ∃ result,
         matchFuzzyIn frames keys query target characterLimit = Normal (Some result)).
Proof.
  intros Hframes Hkeys Hlow.
  rewrite (matchFuzzyIn_enough _ _ _ _ _ Hframes Hkeys).
  exists (occurrenceLists (toLowerCase target) (toLowerCase query) 0%Z).1,
         (occurrenceLists (toLowerCase target) (toLowerCase query) 0%Z).2.
  split.
  { unfold enoughFrames in Hframes.
    rewrite indexOccurencesIn_enough by lia. rewrite indexOccurences_run.
    by destruct (occurrenceLists _ _ _). }
  pose proof (matchFuzzy_total query target characterLimit Hlow) as Htotal.
  split; [|split].
  - destruct Htotal as [-> | [result ->]]; done.
  - by apply matchFuzzy_null_cases.
  - intros Hsome. destruct Htotal as [E | E]; [done | exact E].
Qed.

(** C4. For every non-degenerate query and target the indexing loop of
    [matchFuzzy] ends normally, on a stack with more frames than the
    lowercased target has units as well, and the occurrence lists it has
    built are determined as follows.  The list at index [i] is not empty and
    holds, in ascending order, exactly the positions of the lowercased target
    that carry character [i] of the lowercased query and are at or after the
    lower bound of [i]: position [0] for [i = 0], and one past the first
    position recorded for index [i - 1] otherwise.  The loop builds a list
    for every character of the lowercased query, unless it stops at the
    first character that has no occurrence at or after its lower bound; it
    stops there and nowhere else. *)
Theorem occurrence_lists_exact (query target : list codeUnit) :
  query ≠ [] → target ≠ [] → length query ≤ length target →
  ∃ occurencesPerChar completed,
    indexOccurences (toLowerCase target) (toLowerCase query) 0 []
    = Normal (occurencesPerChar, completed)
    ∧ (∀ frames,
         length (toLowerCase target) < frames →
         indexOccurencesIn frames (toLowerCase target) (toLowerCase query) 0 []
         = Normal (occurencesPerChar, completed))
    ∧ (∀ i occurences,
         occurencesPerChar !! i = Some occurences →
         ∃ character,
           toLowerCase query !! i = Some character
           ∧ occurences ≠ []
           ∧ increasing occurences
           ∧ ∀ p, p ∈ occurences
                  ↔ (lowerBoundAt occurencesPerChar i <= p)%Z
                    ∧ unitAt (toLowerCase target) p = Some character)
    ∧ (completed = true → length occurencesPerChar = length (toLowerCase query))
    ∧ (completed = false →
       noOccurrence (toLowerCase target) (toLowerCase query) occurencesPerChar).
Proof.
  intros _ _ _.
  exists (occurrenceLists (toLowerCase target) (toLowerCase query) 0%Z).1,
         (occurrenceLists (toLowerCase target) (toLowerCase query) 0%Z).2.
  assert (indexOccurences (toLowerCase target) (toLowerCase query) 0 []
          = Normal ((occurrenceLists (toLowerCase target) (toLowerCase query) 0%Z).1,
                    (occurrenceLists (toLowerCase target) (toLowerCase query) 0%Z).2))
    as Hrun by (rewrite indexOccurences_run; by destruct (occurrenceLists _ _ _)).
  split; [done|].
  split; [by intros frames Hframes; rewrite indexOccurencesIn_enough|].
  split; [|split].
  - intros i occurences Hi.
    destruct (occurrenceLists_lookup _ _ _ _ _ Hi) as (c & H1 & H2 & H3).
    exists c. split; [done|]. split; [done|]. split.
    + rewrite H3. apply occurrencesFrom_increasing.
    + intros p. rewrite H3 at 1. rewrite occurrencesFrom_elem_0. by destruct i.
  - intros H.
    by destruct (occurrenceLists_length (toLowerCase target) (toLowerCase query) 0%Z)
      as (_ & H2 & _); apply H2.
  - apply occurrenceLists_noOccurrence.
Qed.

(** C10 (amended). Called with frames enough, a non-empty string whose
    lowercase form is as long as the string matches itself, under the empty
    limit mapping, at its start and without gaps: the result has
    [offset = 0], positions [0, 1, ..., s.length - 1], [extraChars = 0] and
    [trailingChars = 0]. *)
Theorem self_match (frames : nat) (s : list codeUnit) :
  s ≠ [] → length (toLowerCase s) = length s → enoughFrames frames s s →
  matchFuzzyIn frames [] s s ∅
  = Normal (Some {| offset := 0;
                    positions := List.map Z.of_nat (seq 0 (length s));
                    extraChars := 0;
                    trailingChars := 0 |}).
Proof.
  intros Hs Hlength Hframes.
  assert (toLowerCase s ≠ []) as Hlow
    by (intros E; rewrite E in Hlength; destruct s; simpl in *; [done | lia]).
  rewrite (matchFuzzyIn_enough _ _ _ _ _ Hframes keyOrder_empty).
  rewrite self_match_value by done.
  by rewrite Hlength, Z.sub_diag.
Qed.

(** X1. Called with frames enough, [matchFuzzy] finds a match exactly when
    the query is not empty and not longer than the target, and some strictly
    increasing, non-empty sequence of target positions spells the query,
    both lowercased, and passes the character-limit filter: the lower bounds
    of the indexing loop and the one-chain-per-start enumeration miss no
    match. *)
Theorem match_iff_embedding (frames : nat) (keys query target : list codeUnit)
    (characterLimit : gmap codeUnit Z) :
  enoughFrames frames query target →
  keyOrder keys characterLimit →
  (∃ result, matchFuzzyIn frames keys query target characterLimit = Normal (Some result))
  ↔ query ≠ [] ∧ length query ≤ length target
    ∧ ∃ chain,
        chain ≠ []
        ∧ embedding (toLowerCase target) (toLowerCase query) chain
        ∧ hasLessThanMaximumCharacters (toLowerCase target) chain characterLimit = true.
Proof.
  intros Hframes Hkeys.
  rewrite (matchFuzzyIn_enough _ _ _ _ _ Hframes Hkeys).
  apply matchFuzzy_result_cases.
Qed.

(** X11. When the query is not empty nor longer than the target, its
    lowercase form is not empty and occurs in the lowercased target as a
    substring, [matchFuzzy] with no limits, called with frames enough,
    returns a match without gaps: [extraChars] is [0], the positions are
    consecutive from [offset] on, and [offset] is not past the place where
    the substring was seen, so that the first such place is the one
    returned. *)
Theorem substring_match (frames : nat) (query target before after : list codeUnit) :
  query ≠ [] → length query ≤ length target → toLowerCase query ≠ [] →
  enoughFrames frames query target →
  toLowerCase target = before ++ toLowerCase query ++ after →
  ∃ result,
    matchFuzzyIn frames [] query target ∅ = Normal (Some result)
    ∧ extraChars result = 0%Z
    ∧ (0 <= offset result <= Z.of_nat (length before))%Z
    ∧ positions result
      = List.map (fun i => (offset result + Z.of_nat i)%Z)
          (seq 0 (length (toLowerCase query))).
Proof.
  intros Hq Hlen Hlow Hframes Hsub.
  rewrite (matchFuzzyIn_enough _ _ _ _ _ Hframes keyOrder_empty).
  by apply (substring_match_value query target before after).
Qed.

(** X12. A match survives when the target grows: if a call of [matchFuzzy]
    returns a match in a target, a call with frames enough returns one, under
    the same limit mapping, in every target not shorter than the query whose
    lowercase form has text added before and after the lowercase form of the
    first, and the [extraChars] of that match is not larger. *)
Theorem longer_target_keeps_match (frames frames' : nat)
    (keys query target target' before after : list codeUnit)
    (characterLimit : gmap codeUnit Z) (result : MatchResult) :
  keyOrder keys characterLimit →
  matchFuzzyIn frames keys query target characterLimit = Normal (Some result) →
  length query ≤ length target' →
  toLowerCase target' = before ++ toLowerCase target ++ after →
  enoughFrames frames' query target' →
  ∃ result',
    matchFuzzyIn frames' keys query target' characterLimit = Normal (Some result')
    ∧ (extraChars result' <= extraChars result)%Z.
Proof.
  intros Hkeys Hmatch Hlen Hsub Hframes.
  rewrite (matchFuzzyIn_enough _ _ _ _ _ Hframes Hkeys).
  apply matchFuzzyIn_result in Hmatch; [|apply Hkeys].
  by apply (longer_target_value query target target' before after characterLimit result).
Qed.

(** X13. No number of frames is enough for every call: a one-unit query
    against a target that is a run of that unit, both kept by lowercasing,
    overflows the stack as soon as the run is as long as the frames. *)
Theorem stack_overflow (frames : nat) (keys : list codeUnit)
    (characterLimit : gmap codeUnit Z) (character : codeUnit) (n : nat) :
  toLowerCase [character] = [character] →
  toLowerCase (repeat character n) = repeat character n →
  0 < n → frames ≤ n →
  matchFuzzyIn frames keys [character] (repeat character n) characterLimit = Throw.
Proof.
  intros H1 Hn Hpos Hframes.
  apply (matchFuzzyIn_overflow _ _ _ _ _ character).
  - done.
  - rewrite repeat_length. simpl. lia.
  - done.
  - by rewrite repeat_length.
  - by rewrite repeat_length.
Qed.

End lowercasing.

(** * Instances *)

(** [String.prototype.toLowerCase] on the strings used below: the letters
    [A]-[Z] and the capital letters of Latin-1 move up by 32, the capital I
    with dot above (U+0130) becomes the two units of [i] and the combining
    dot above (U+0069 U+0307), and the other units of these strings are kept.
    None of these strings holds a unit whose lowercase form depends on its
    neighbours. *)
Definition lowerUnit (unit : codeUnit) : list codeUnit :=
  if ((65 <=? unit) && (unit <=? 90))%N then [(unit + 32)%N]
  else if ((192 <=? unit) && (unit <=? 222) && negb (unit =? 215))%N then [(unit + 32)%N]
  else if (unit =? 304)%N then [105%N; 775%N]
  else [unit].

Definition lowerCase (s : list codeUnit) : list codeUnit := flat_map lowerUnit s.

(** The capital I with dot above, as a one-unit string. *)
Definition dottedI : list codeUnit := [304%N].

Example matchFuzzy_fb :
  matchFuzzy lowerCase (units "fb") (units "foo bar") ∅
  = Normal (Some (mkMatchResult 0 [0; 4]%Z 3 2)).
Proof. vm_compute. reflexivity. Qed.

Example matchFuzzy_oo :
  matchFuzzy lowerCase (units "oo") (units "foo bar") ∅
  = Normal (Some (mkMatchResult 1 [1; 2]%Z 0 4)).
Proof. vm_compute. reflexivity. Qed.

Example matchFuzzy_xyz :
  matchFuzzy lowerCase (units "xyz") (units "foo bar") ∅ = Normal None.
Proof. vm_compute. reflexivity. Qed.

Example matchFuzzy_space_limit :
  matchFuzzy lowerCase (units "fb") (units "foo bar baz") {[ unitOf " " := 0%Z ]}
  = Normal None.
Proof. vm_compute. reflexivity. Qed.

Example matchFuzzyIn_fb :
  matchFuzzyIn lowerCase 7 [] (units "fb") (units "foo bar") ∅
  = Normal (Some (mkMatchResult 0 [0; 4]%Z 3 2)).
Proof. vm_compute. reflexivity. Qed.

Example matchFuzzyIn_space_limit :
  matchFuzzyIn lowerCase 20 [unitOf " "] (units "fb") (units "foo bar baz")
    {[ unitOf " " := 0%Z ]}
  = Normal None.
Proof. vm_compute. reflexivity. Qed.

(** ** The shape of a result *)

Lemma positions_match_witness :
  matchFuzzy lowerCase (units "fb") (units "Foo Bar") ∅
  = Normal (Some (mkMatchResult 0 [0; 4]%Z 3 2))
  ∧ (length [0; 4]%Z = length (lowerCase (units "fb"))
     ∧ (length (lowerCase (units "fb")) = length (units "fb") →
        length [0; 4]%Z = length (units "fb"))
     ∧ increasing [0; 4]%Z
     ∧ ∀ i p, [0; 4]%Z !! i = Some p →
         ∃ character,
           lowerCase (units "fb") !! i = Some character
           ∧ unitAt (lowerCase (units "Foo Bar")) p = Some character).
Proof.
  split; [vm_compute; reflexivity|].
  apply (positions_match lowerCase (units "fb") (units "Foo Bar") ∅
           (mkMatchResult 0 [0; 4]%Z 3 2)).
  vm_compute. reflexivity.
Defined.

(** C1, at a failing input.  The query and the target are both the capital
    I with dot above, one unit long.  Its lowercase form has two units, [i]
    and the combining dot, and the match has the two positions [0] and [1]:
    more positions than the query has units, and position [1] is no position
    of the target. *)
Theorem positions_longer_than_query :
  length dottedI = 1
  ∧ lowerCase dottedI = [105%N; 775%N]
  ∧ matchFuzzy lowerCase dottedI dottedI ∅
    = Normal (Some (mkMatchResult 0 [0; 1]%Z 0 (-1)))
  ∧ length [0; 1]%Z ≠ length dottedI
  ∧ unitAt dottedI 1 = None.
Proof. repeat apply conj; vm_compute; (reflexivity || discriminate). Qed.

Lemma result_fields_witness :
  matchFuzzy lowerCase (units "fb") (units "foo bar") ∅
  = Normal (Some (mkMatchResult 0 [0; 4]%Z 3 2))
  ∧ (head [0; 4]%Z = Some 0%Z
     ∧ (∃ final, last [0; 4]%Z = Some final
                 ∧ 2%Z = (Z.of_nat (length (units "foo bar")) - (final + 1))%Z)
     ∧ 3%Z = gapSum [0; 4]%Z
     ∧ (0 <= 3)%Z
     ∧ (Z.of_nat (length (units "foo bar"))
        - Z.of_nat (length (lowerCase (units "foo bar"))) <= 2)%Z
     ∧ (length (lowerCase (units "foo bar")) ≤ length (units "foo bar") → (0 <= 2)%Z)
     ∧ (3%Z = 0%Z ↔ contiguous [0; 4]%Z)).
Proof.
  split; [vm_compute; reflexivity|].
  apply (result_fields lowerCase (units "fb") (units "foo bar") ∅
           (mkMatchResult 0 [0; 4]%Z 3 2)).
  vm_compute. reflexivity.
Defined.

(** C9, at a failing input.  The capital I with dot above matched against
    itself: the last position is [1], one past the only unit of the target,
    and [trailingChars] is [1 - (1 + 1)], a negative number. *)
Theorem trailingChars_negative :
  ∃ result,
    matchFuzzy lowerCase dottedI dottedI ∅ = Normal (Some result)
    ∧ last (positions result) = Some 1%Z
    ∧ length dottedI = 1
    ∧ trailingChars result = (-1)%Z
    ∧ ¬ (0 <= trailingChars result)%Z.
Proof.
  exists (mkMatchResult 0 [0; 1]%Z 0 (-1)).
  repeat apply conj; vm_compute; (reflexivity || discriminate || (intros H; by apply H)).
Qed.

(** ** Calls that throw and calls that do not *)

Lemma no_match_cases_witness :
  enoughFrames lowerCase 20 (units "fb") (units "foo bar baz")
  ∧ keyOrder lowerCase [unitOf " "] {[ unitOf " " := 0%Z ]}
  ∧ (units "fb" ≠ [] → lowerCase (units "fb") ≠ [])
  ∧ ∃ occurencesPerChar completed,
      indexOccurencesIn 19 (lowerCase (units "foo bar baz")) (lowerCase (units "fb")) 0 []
      = Normal (occurencesPerChar, completed)
      ∧ matchFuzzyIn lowerCase 20 [unitOf " "] (units "fb") (units "foo bar baz")
          {[ unitOf " " := 0%Z ]} ≠ Throw
      ∧ (matchFuzzyIn lowerCase 20 [unitOf " "] (units "fb") (units "foo bar baz")
           {[ unitOf " " := 0%Z ]} = Normal None
         ↔ units "fb" = [] ∨ units "foo bar baz" = []
           ∨ length (units "foo bar baz") < length (units "fb")
           ∨ noOccurrence (lowerCase (units "foo bar baz")) (lowerCase (units "fb"))
               occurencesPerChar
           ∨ ∀ chain, candidate occurencesPerChar chain →
               hasLessThanMaximumCharacters lowerCase (lowerCase (units "foo bar baz"))
                 chain {[ unitOf " " := 0%Z ]}
               = false)
      ∧ (matchFuzzyIn lowerCase 20 [unitOf " "] (units "fb") (units "foo bar baz")
           {[ unitOf " " := 0%Z ]} ≠ Normal None →
         ∃ result,
           matchFuzzyIn lowerCase 20 [unitOf " "] (units "fb") (units "foo bar baz")
             {[ unitOf " " := 0%Z ]} = Normal (Some result)).
Proof.
  assert (enoughFrames lowerCase 20 (units "fb") (units "foo bar baz")) as Hframes
    by (vm_compute; lia).
  assert (keyOrder lowerCase [unitOf " "] {[ unitOf " " := 0%Z ]}) as Hkeys.
  { split; [by rewrite map_to_list_singleton | repeat constructor; discriminate]. }
  assert (units "fb" ≠ [] → lowerCase (units "fb") ≠ []) as Hlow
    by (intros _; discriminate).
  split; [exact Hframes|]. split; [exact Hkeys|]. split; [exact Hlow|].
  apply (no_match_cases lowerCase 20 [unitOf " "] (units "fb") (units "foo bar baz")
           {[ unitOf " " := 0%Z ]} Hframes Hkeys Hlow).
Defined.

Lemma lowerCase_repeat (unit : codeUnit) (n : nat) :
  lowerUnit unit = [unit] → lowerCase (repeat unit n) = repeat unit n.
Proof.
  intros H. induction n as [|n IH]; [done|].
  unfold lowerCase in *. simpl. by rewrite H, IH.
Qed.

(** The query ["a"] against a run of ["a"]: the query is not empty, the
    target is not shorter, the ["a"] occurs and no limit is set.  Against
    four of them, called with six frames left, [matchFuzzy] returns the match
    at position [0]; called with five it throws, as [findOccurences] calls
    itself once for each ["a"] of the target and once more.  Against 20000
    of them it throws when called with 20000 frames left. *)
Lemma matchFuzzy_overflows :
  matchFuzzyIn lowerCase 6 [] (units "a") (units "aaaa") ∅
  = Normal (Some (mkMatchResult 0 [0]%Z 0 3))
  ∧ matchFuzzyIn lowerCase 5 [] (units "a") (units "aaaa") ∅ = Throw
  ∧ matchFuzzyIn lowerCase (N.to_nat 20000) [] (units "a")
      (repeat (unitOf "a") (N.to_nat 20000)) ∅ = Throw.
Proof.
  split; [vm_compute; reflexivity|]. split; [vm_compute; reflexivity|].
  apply (matchFuzzyIn_overflow lowerCase _ _ _ _ _ (unitOf "a")).
  - discriminate.
  - rewrite repeat_length. change (length (units "a")) with 1. lia.
  - reflexivity.
  - rewrite repeat_length. by apply lowerCase_repeat.
  - by rewrite repeat_length.
Qed.

(** ** The enumerator *)

Lemma enumerator_greedy_witness :
  [[0; 1]; [2; 3]]%Z ≠ []
  ∧ ∃ combinations,
      getPossibleCombinations [[0; 1]; [2; 3]]%Z [] = Normal combinations
      ∧ combinations
        = List.filter (fun set => (length set =? length [[0; 1]; [2; 3]]%Z)%nat)
            (List.map (fun occurence => greedyChain (tail [[0; 1]; [2; 3]]%Z) [occurence])
               (default [] (head [[0; 1]; [2; 3]]%Z)))
      ∧ (∀ chain, chain ∈ combinations → candidate [[0; 1]; [2; 3]]%Z chain)
      ∧ (Forall increasing [[0; 1]; [2; 3]]%Z →
         ∀ chain, candidate [[0; 1]; [2; 3]]%Z chain →
           ∃ found, found ∈ combinations
                    ∧ head found = head chain
                    ∧ Forall2 Z.le found chain).
Proof.
  split; [discriminate|].
  apply (enumerator_greedy [[0; 1]; [2; 3]]%Z). discriminate.
Defined.

(** The query ["ab"] and the target ["aabb"] give the occurrence lists
    [[0; 1]] and [[2; 3]].  The chain [[0; 3]] takes one position from each
    and is strictly increasing, yet the enumerator returns only [[0; 2]] and
    [[1; 2]]. *)
Lemma enumerator_misses_chain :
  indexOccurences (lowerCase (units "aabb")) (lowerCase (units "ab")) 0 []
  = Normal ([[0; 1]; [2; 3]]%Z, true)
  ∧ candidate [[0; 1]; [2; 3]]%Z [0; 3]%Z
  ∧ getPossibleCombinations [[0; 1]; [2; 3]]%Z [] = Normal [[0; 2]; [1; 2]]%Z
  ∧ [0; 3]%Z ∉ [[0; 2]; [1; 2]]%Z.
Proof.
  repeat apply conj.
  - vm_compute. reflexivity.
  - repeat constructor.
  - repeat constructor; lia.
  - reflexivity.
  - intros H. repeat (apply elem_of_cons in H as [H|H]; [discriminate|]).
    by apply elem_of_nil in H.
Qed.

(** ** The occurrence lists *)

Lemma occurrence_lists_exact_witness :
  units "ab" ≠ [] ∧ units "aabb" ≠ [] ∧ length (units "ab") ≤ length (units "aabb")
  ∧ ∃ occurencesPerChar completed,
      indexOccurences (lowerCase (units "aabb")) (lowerCase (units "ab")) 0 []
      = Normal (occurencesPerChar, completed)
      ∧ (∀ frames,
           length (lowerCase (units "aabb")) < frames →
           indexOccurencesIn frames (lowerCase (units "aabb")) (lowerCase (units "ab")) 0 []
           = Normal (occurencesPerChar, completed))
      ∧ (∀ i occurences,
           occurencesPerChar !! i = Some occurences →
           ∃ character,
             lowerCase (units "ab") !! i = Some character
             ∧ occurences ≠ []
             ∧ increasing occurences
             ∧ ∀ p, p ∈ occurences
                    ↔ (lowerBoundAt occurencesPerChar i <= p)%Z
                      ∧ unitAt (lowerCase (units "aabb")) p = Some character)
      ∧ (completed = true → length occurencesPerChar = length (lowerCase (units "ab")))
      ∧ (completed = false →
         noOccurrence (lowerCase (units "aabb")) (lowerCase (units "ab"))
           occurencesPerChar).
Proof.
  split; [discriminate|]. split; [discriminate|]. split; [simpl; lia|].
  apply (occurrence_lists_exact lowerCase (units "ab") (units "aabb"));
    [discriminate | discriminate | simpl; lia].
Defined.

(** ** The selection *)


(** ** The case of the keys *)

(** C6, at a failing input.  With the target ["xAy"], lowercased, and the
    chain [[0; 2]], the span is ["xa"]; it holds one ["a"], more than the
    limit [0] configured under the key ["A"], and the filter keeps the chain.
    The example of the claim does hold: under [{" ": 0}] the query ["fb"]
    finds no match in ["foo bar baz"]. *)
Theorem filter_keeps_chain_over_limit :
  lowerCase [unitOf "A"] = [unitOf "a"]
  ∧ countInSpan (lowerCase (units "xAy")) [0; 2]%Z (unitOf "a") = 1%Z
  ∧ ({[ unitOf "A" := 0%Z ]} : gmap codeUnit Z) !! unitOf "A" = Some 0%Z
  ∧ hasLessThanMaximumCharacters lowerCase (lowerCase (units "xAy")) [0; 2]%Z
      {[ unitOf "A" := 0%Z ]} = true
  ∧ matchFuzzy lowerCase (units "fb") (units "foo bar baz") {[ unitOf " " := 0%Z ]}
    = Normal None.
Proof. repeat apply conj; vm_compute; reflexivity. Qed.

(** C7, at a failing input.  The query ["xy"] and the target ["xAy"] give
    no match under [{"a": 0}] and a match under [{"A": 0}]: the two mappings
    differ only in the case of their key. *)
Theorem limit_key_case_matters :
  lowerCase [unitOf "A"] = [unitOf "a"]
  ∧ matchFuzzy lowerCase (units "xy") (units "xAy") {[ unitOf "a" := 0%Z ]} = Normal None
  ∧ matchFuzzy lowerCase (units "xy") (units "xAy") {[ unitOf "A" := 0%Z ]}
    = Normal (Some (mkMatchResult 0 [0; 2]%Z 1 0)).
Proof. repeat apply conj; vm_compute; reflexivity. Qed.

(** ** A string against itself *)

Lemma self_match_witness :
  units "Aba" ≠ [] ∧ length (lowerCase (units "Aba")) = length (units "Aba")
  ∧ enoughFrames lowerCase 12 (units "Aba") (units "Aba")
  ∧ matchFuzzyIn lowerCase 12 [] (units "Aba") (units "Aba") ∅
    = Normal (Some {| offset := 0;
                      positions := List.map Z.of_nat (seq 0 (length (units "Aba")));
                      extraChars := 0;
                      trailingChars := 0 |}).
Proof.
  split; [discriminate|]. split; [reflexivity|]. split; [vm_compute; lia|].
  apply (self_match lowerCase 12 (units "Aba"));
    [discriminate | reflexivity | vm_compute; lia].
Defined.

(** The capital I with dot above is a non-empty string, and matched against
    itself it gives the positions [[0; 1]] and [trailingChars = -1], not the
    positions [[0]] and [trailingChars = 0].  A run of four ["a"], matched
    against itself with five frames left, throws. *)
Lemma self_match_fails :
  dottedI ≠ []
  ∧ matchFuzzyIn lowerCase 12 [] dottedI dottedI ∅
    = Normal (Some (mkMatchResult 0 [0; 1]%Z 0 (-1)))
  ∧ matchFuzzyIn lowerCase 12 [] dottedI dottedI ∅
    ≠ Normal (Some {| offset := 0;
                      positions := List.map Z.of_nat (seq 0 (length dottedI));
                      extraChars := 0;
                      trailingChars := 0 |})
  ∧ matchFuzzyIn lowerCase 5 [] (units "aaaa") (units "aaaa") ∅ = Throw.
Proof. repeat apply conj; vm_compute; (reflexivity || discriminate). Qed.

(** ** Further instances *)

Lemma match_iff_embedding_witness :
  enoughFrames lowerCase 20 (units "fb") (units "foo bar")
  ∧ keyOrder lowerCase [unitOf " "] {[ unitOf " " := 1%Z ]}
  ∧ ((∃ result,
        matchFuzzyIn lowerCase 20 [unitOf " "] (units "fb") (units "foo bar")
          {[ unitOf " " := 1%Z ]} = Normal (Some result))
     ↔ units "fb" ≠ [] ∧ length (units "fb") ≤ length (units "foo bar")
       ∧ ∃ chain,
           chain ≠ []
           ∧ embedding (lowerCase (units "foo bar")) (lowerCase (units "fb")) chain
           ∧ hasLessThanMaximumCharacters lowerCase (lowerCase (units "foo bar")) chain
               {[ unitOf " " := 1%Z ]} = true).
Proof.
  assert (enoughFrames lowerCase 20 (units "fb") (units "foo bar")) as Hframes
    by (vm_compute; lia).
  assert (keyOrder lowerCase [unitOf " "] {[ unitOf " " := 1%Z ]}) as Hkeys.
  { split; [by rewrite map_to_list_singleton | repeat constructor; discriminate]. }
  split; [exact Hframes|]. split; [exact Hkeys|].
  apply (match_iff_embedding lowerCase 20 [unitOf " "] (units "fb") (units "foo bar")
           {[ unitOf " " := 1%Z ]} Hframes Hkeys).
Defined.

Lemma result_optimal_witness :
  matchFuzzy lowerCase (units "ab") (units "a-bab") ∅
  = Normal (Some (mkMatchResult 3 [3; 4]%Z 0 0))
  ∧ (embedding (lowerCase (units "a-bab")) (lowerCase (units "ab")) [3; 4]%Z
     ∧ hasLessThanMaximumCharacters lowerCase (lowerCase (units "a-bab")) [3; 4]%Z ∅
       = true
     ∧ 0%Z = calculateExtraChars [3; 4]%Z
     ∧ ∀ chain,
         embedding (lowerCase (units "a-bab")) (lowerCase (units "ab")) chain →
         hasLessThanMaximumCharacters lowerCase (lowerCase (units "a-bab")) chain ∅
         = true →
         (0 <= calculateExtraChars chain)%Z).
Proof.
  split; [vm_compute; reflexivity|].
  apply (result_optimal lowerCase (units "ab") (units "a-bab") ∅
           (mkMatchResult 3 [3; 4]%Z 0 0)).
  vm_compute. reflexivity.
Defined.

Lemma result_leftmost_witness :
  matchFuzzy lowerCase (units "ab") (units "b-ab-ab") ∅
  = Normal (Some (mkMatchResult 2 [2; 3]%Z 0 3))
  ∧ ((∀ chain,
        embedding (lowerCase (units "b-ab-ab")) (lowerCase (units "ab")) chain →
        hasLessThanMaximumCharacters lowerCase (lowerCase (units "b-ab-ab")) chain ∅
        = true →
        calculateExtraChars chain = 0%Z →
        ∃ first, head chain = Some first ∧ (2 <= first)%Z)
     ∧ (∀ chain,
          embedding (lowerCase (units "b-ab-ab")) (lowerCase (units "ab")) chain →
          head chain = Some 2%Z →
          Forall2 Z.le [2; 3]%Z chain)).
Proof.
  split; [vm_compute; reflexivity|].
  apply (result_leftmost lowerCase (units "ab") (units "b-ab-ab") ∅
           (mkMatchResult 2 [2; 3]%Z 0 3)).
  vm_compute. reflexivity.
Defined.

Lemma result_accounting_witness :
  matchFuzzy lowerCase (units "fb") (units "foo bar") ∅
  = Normal (Some (mkMatchResult 0 [0; 4]%Z 3 2))
  ∧ ((0 + Z.of_nat (length (lowerCase (units "fb"))) + 3 + 2
      = Z.of_nat (length (units "foo bar")))%Z
     ∧ (0 <= 0)%Z ∧ (0 <= 3)%Z
     ∧ (Z.of_nat (length (units "foo bar"))
        - Z.of_nat (length (lowerCase (units "foo bar"))) <= 2)%Z).
Proof.
  split; [vm_compute; reflexivity|].
  apply (result_accounting lowerCase (units "fb") (units "foo bar") ∅
           (mkMatchResult 0 [0; 4]%Z 3 2)).
  vm_compute. reflexivity.
Defined.

Lemma filter_lowercase_keys_witness :
  (∀ character,
     is_Some (({[ unitOf " " := 1%Z ]} : gmap codeUnit Z) !! character) →
     lowerCase [character] = [character])
  ∧ head [0; 8]%Z = Some 0%Z ∧ last [0; 8]%Z = Some 8%Z
  ∧ (hasLessThanMaximumCharacters lowerCase (units "foo bar baz") [0; 8]%Z
       {[ unitOf " " := 1%Z ]}
     = true
     ↔ ∀ character limit,
         ({[ unitOf " " := 1%Z ]} : gmap codeUnit Z) !! character = Some limit →
         (Z.of_nat (length (List.filter (fun unit => N.eqb unit character)
                              (substring (units "foo bar baz") 0 8))) <= limit)%Z).
Proof.
  assert (∀ character,
            is_Some (({[ unitOf " " := 1%Z ]} : gmap codeUnit Z) !! character) →
            lowerCase [character] = [character]) as Hkeys.
  { intros character [limit H]. apply lookup_singleton_Some in H as [<- _]. reflexivity. }
  split; [exact Hkeys|]. split; [reflexivity|]. split; [reflexivity|].
  apply (filter_lowercase_keys lowerCase (units "foo bar baz") [0; 8]%Z
           {[ unitOf " " := 1%Z ]} 0 8);
    [exact Hkeys | reflexivity | reflexivity].
Defined.

Lemma tighter_limits_never_help_witness :
  (∀ character limit,
     (∅ : gmap codeUnit Z) !! character = Some limit →
     ∃ limit', ({[ unitOf "-" := 0%Z ]} : gmap codeUnit Z) !! character = Some limit'
               ∧ (limit' <= limit)%Z)
  ∧ matchFuzzy lowerCase (units "ab") (units "a-bxab") {[ unitOf "-" := 0%Z ]}
    = Normal (Some (mkMatchResult 4 [4; 5]%Z 0 0))
  ∧ ∃ result,
      matchFuzzy lowerCase (units "ab") (units "a-bxab") ∅ = Normal (Some result)
      ∧ (extraChars result <= 0)%Z.
Proof.
  assert (∀ character limit,
            (∅ : gmap codeUnit Z) !! character = Some limit →
            ∃ limit', ({[ unitOf "-" := 0%Z ]} : gmap codeUnit Z) !! character
                      = Some limit'
                      ∧ (limit' <= limit)%Z) as Hstrict.
  { intros character limit H. rewrite lookup_empty in H. discriminate. }
  split; [exact Hstrict|]. split; [vm_compute; reflexivity|].
  apply (tighter_limits_never_help lowerCase (units "ab") (units "a-bxab") ∅
           {[ unitOf "-" := 0%Z ]} (mkMatchResult 4 [4; 5]%Z 0 0)); [exact Hstrict|].
  vm_compute. reflexivity.
Defined.

Lemma substring_match_witness :
  units "Bar" ≠ [] ∧ length (units "Bar") ≤ length (units "foo BAR baz")
  ∧ lowerCase (units "Bar") ≠ []
  ∧ enoughFrames lowerCase 20 (units "Bar") (units "foo BAR baz")
  ∧ lowerCase (units "foo BAR baz")
    = units "foo " ++ lowerCase (units "Bar") ++ units " baz"
  ∧ ∃ result,
      matchFuzzyIn lowerCase 20 [] (units "Bar") (units "foo BAR baz") ∅
      = Normal (Some result)
      ∧ extraChars result = 0%Z
      ∧ (0 <= offset result <= Z.of_nat (length (units "foo ")))%Z
      ∧ positions result
        = List.map (fun i => (offset result + Z.of_nat i)%Z)
            (seq 0 (length (lowerCase (units "Bar")))).
Proof.
  split; [discriminate|]. split; [simpl; lia|]. split; [discriminate|].
  split; [vm_compute; lia|]. split; [reflexivity|].
  apply (substring_match lowerCase 20 (units "Bar") (units "foo BAR baz") (units "foo ")
           (units " baz"));
    [discriminate | simpl; lia | discriminate | vm_compute; lia | reflexivity].
Defined.

Lemma longer_target_keeps_match_witness :
  keyOrder lowerCase [] ∅
  ∧ matchFuzzyIn lowerCase 10 [] (units "fb") (units "foo bar") ∅
    = Normal (Some (mkMatchResult 0 [0; 4]%Z 3 2))
  ∧ length (units "fb") ≤ length (units "my foo bar.fb")
  ∧ lowerCase (units "my foo bar.fb")
    = units "my " ++ lowerCase (units "foo bar") ++ units ".fb"
  ∧ enoughFrames lowerCase 20 (units "fb") (units "my foo bar.fb")
  ∧ ∃ result',
      matchFuzzyIn lowerCase 20 [] (units "fb") (units "my foo bar.fb") ∅
      = Normal (Some result')
      ∧ (extraChars result' <= 3)%Z.
Proof.
  assert (keyOrder lowerCase [] ∅) as Hkeys
    by (split; [by rewrite map_to_list_empty | constructor]).
  split; [exact Hkeys|]. split; [vm_compute; reflexivity|]. split; [simpl; lia|].
  split; [reflexivity|]. split; [vm_compute; lia|].
  apply (longer_target_keeps_match lowerCase 10 20 [] (units "fb") (units "foo bar")
           (units "my foo bar.fb") (units "my ") (units ".fb") ∅
           (mkMatchResult 0 [0; 4]%Z 3 2) Hkeys);
    [vm_compute; reflexivity | simpl; lia | reflexivity | vm_compute; lia].
Defined.

Lemma stack_overflow_witness :
  lowerCase [unitOf "a"] = [unitOf "a"]
  ∧ lowerCase (repeat (unitOf "a") 5) = repeat (unitOf "a") 5
  ∧ 0 < 5 ∧ 5 ≤ 5
  ∧ matchFuzzyIn lowerCase 5 [] [unitOf "a"] (repeat (unitOf "a") 5) ∅ = Throw.
Proof.
  split; [reflexivity|]. split; [reflexivity|]. split; [lia|]. split; [lia|].
  apply (stack_overflow lowerCase 5 [] ∅ (unitOf "a") 5); [reflexivity | reflexivity | lia | lia].
Defined.
